(** * carlin/polyhedron_toolbox.py: half-space models, the representation
      converter and the LP query engine

    The development embeds the six functions of the module
    ([polyhedron_to_Hrep], [polyhedron_from_Hrep], [chebyshev_center],
    [radius], [supp_fun_polyhedron], [BoxInfty]) as programs over the
    values they exchange, and states the properties of the specification
    about them.

    Conventions of the embedding.
    - Coefficients are real numbers.  A matrix, a vector and a polyhedron
      carry the name of their base ring; a coercion [base_ring(x)] keeps the
      number and changes the name, so rounding in the double field is
      outside the model.
    - Python values are dynamically typed: [value] is the universe of what
      the functions receive and return, and a method that the receiver does
      not have raises [AttributeError].
    - The LP solver and the polyhedron constructor are the two external
      collaborators.  A program is a tree whose nodes are the calls to them
      ([Solve], [NewPolyhedron]); [run] interprets a program against a
      solver and an engine. *)

From Stdlib Require Import String.
From Stdlib Require Import Reals Lra List Bool Arith Lia.
Import ListNotations.
Open Scope R_scope.

(** ** Sage objects *)

(** Base rings.  [QQ] and [RDF] are the two rings the module supports; [RR]
    stands for any other ring a caller may name. *)
Inductive ring : Type := QQ | RDF | RR.

Definition ring_eqb (K1 K2 : ring) : bool :=
  match K1, K2 with
  | QQ, QQ | RDF, RDF | RR, RR => true
  | _, _ => false
  end.

(** [K(x)]: the number [x] as an element of [K]. *)
Definition coerce (K : ring) (x : R) : R := x.

Record vector : Type := mk_vector {
  vec_ring : ring;
  vec_entries : list R
}.

Record matrix : Type := mk_matrix {
  mat_ring : ring;
  mat_ncols : nat;
  mat_rows : list (list R)
}.

Definition mat_nrows (M : matrix) : nat := length (mat_rows M).

(** [vector(K, l)] and [matrix(K, rows)]: the column count of a matrix built
    from a list of rows is read off its first row. *)
Definition vector_of (K : ring) (l : list R) : vector :=
  mk_vector K (map (coerce K) l).

Definition matrix_of (K : ring) (rows : list (list R)) : matrix :=
  mk_matrix K (match rows with [] => 0%nat | r :: _ => length r end)
            (map (map (coerce K)) rows).

(** The entries of [zero_vector(K, n)] and of [vector(K, n)]; the rows of
    [matrix(K, m, n)] are [m] of them. *)
Definition zero_vector (n : nat) : list R := repeat 0 n.

(** [l[i] = x] on a list whose length covers [i]. *)
Fixpoint set_item {A : Type} (l : list A) (i : nat) (x : A) : list A :=
  match l, i with
  | [], _ => []
  | _ :: l', O => x :: l'
  | a :: l', S i' => a :: set_item l' i' x
  end.

Definition vec_neg (v : list R) : list R := map Ropp v.

(** One constraint of a polyhedron object: its vector is
    [[offset, coeff_1, ..., coeff_n]] and stands for
    [offset + coeff . x >= 0], or [= 0] when the constraint is an
    equation. *)
Record Hrep_obj : Type := mk_Hrep_obj {
  is_equation : bool;
  h_offset : R;
  h_coeffs : list R
}.

Definition Hvector (h : Hrep_obj) : list R := h_offset h :: h_coeffs h.

(** The polyhedron object of the engine, as far as the module reads it. *)
Record polyhedron : Type := mk_polyhedron {
  poly_base_ring : ring;
  poly_ambient_dim : nat;
  Hrepresentation : list Hrep_obj;
  poly_is_empty : bool
}.

(** ** Python values and exceptions *)

#[local] Set Warnings "-register-all".

Inductive value : Type :=
| VNone
| VNum (x : R)
| VList (l : list value)
| VDict (d : list (nat * R))
| VVector (v : vector)
| VMatrix (M : matrix)
| VPolyhedron (P : polyhedron).

Inductive exn : Type :=
| AttributeError
| IndexError
| TypeError
| ValueError
| InfeasibleError
| UnboundedError.

Definition is_None (v : value) : bool :=
  match v with VNone => true | _ => false end.

(** ** Linear programs *)

(** A variable [x[i]] of the [k]-th family created by [new_variable()].
    Every variable is real and free: [supp_fun_polyhedron] asks for
    [nonnegative=False], and the solver boundary takes free variables. *)
Definition mipvar : Type := (nat * nat)%type.

(** A linear function: the sum of its terms [c * v]. *)
Definition linfun : Type := list (R * mipvar).

Record MILP : Type := mk_MILP {
  milp_solver : option string;
  milp_objective : linfun;             (* maximised *)
  milp_constraints : list (linfun * R) (* each [f <= rhs] *)
}.

Definition assignment : Type := mipvar -> R.

Fixpoint lin_eval (f : linfun) (s : assignment) : R :=
  match f with
  | [] => 0
  | (c, v) :: f' => c * s v + lin_eval f' s
  end.

Definition milp_feasible (lp : MILP) (s : assignment) : Prop :=
  Forall (fun c => lin_eval (fst c) s <= snd c) (milp_constraints lp).

Inductive lp_status : Type :=
| Optimal (oval : R) (point : assignment)
| Infeasible
| Unbounded.

(** What the solver boundary promises about its answer to one problem. *)
Definition solver_answer_ok (lp : MILP) (st : lp_status) : Prop :=
  match st with
  | Optimal oval s =>
      milp_feasible lp s /\ lin_eval (milp_objective lp) s = oval /\
      forall s', milp_feasible lp s' -> lin_eval (milp_objective lp) s' <= oval
  | Infeasible => forall s, ~ milp_feasible lp s
  | Unbounded =>
      (exists s, milp_feasible lp s) /\
      forall bound, exists s,
        milp_feasible lp s /\ bound < lin_eval (milp_objective lp) s
  end.

(** ** Programs *)

(** The request [Polyhedron(ieqs=..., base_ring=..., ambient_dim=...,
    backend=...)]. *)
Record ieqs_request : Type := mk_request {
  req_ieqs : list (list R);
  req_base_ring : ring;
  req_ambient_dim : nat;
  req_backend : string
}.

Inductive prog (A : Type) : Type :=
| Ret (a : A)
| Raise (e : exn)
| Solve (lp : MILP) (k : lp_status -> prog A)
| NewPolyhedron (req : ieqs_request) (k : polyhedron -> prog A).

Arguments Ret {A} a.
Arguments Raise {A} e.
Arguments Solve {A} lp k.
Arguments NewPolyhedron {A} req k.

Fixpoint bind {A B : Type} (p : prog A) (f : A -> prog B) : prog B :=
  match p with
  | Ret a => f a
  | Raise e => Raise e
  | Solve lp k => Solve lp (fun st => bind (k st) f)
  | NewPolyhedron req k => NewPolyhedron req (fun P => bind (k P) f)
  end.

Notation "x <- c1 ;; c2" := (bind c1 (fun x => c2))
  (at level 61, c1 at next level, right associativity).

(** A [for] loop over a list, threading the loop's variables. *)
Fixpoint for_each {A S : Type} (l : list A) (body : S -> A -> prog S) (s : S)
  : prog S :=
  match l with
  | [] => Ret s
  | a :: l' => s' <- body s a ;; for_each l' body s'
  end.

Definition range (n : nat) : list nat := seq 0 n.

Inductive outcome (A : Type) : Type :=
| Ok (a : A)
| Err (e : exn).

Arguments Ok {A} a.
Arguments Err {A} e.

(** The run of a program against a solver and a polyhedron engine. *)
Fixpoint run {A : Type} (solve : MILP -> lp_status)
    (engine : ieqs_request -> polyhedron) (p : prog A) : outcome A :=
  match p with
  | Ret a => Ok a
  | Raise e => Err e
  | Solve lp k => run solve engine (k (solve lp))
  | NewPolyhedron req k => run solve engine (k (engine req))
  end.

(** [p.solve()] raises when the solver reports no optimum; otherwise the
    optimal value and [p.get_values] are available. *)
Definition mip_solve (lp : MILP) : prog (R * assignment) :=
  Solve lp (fun st =>
    match st with
    | Optimal oval s => Ret (oval, s)
    | Infeasible => Raise InfeasibleError
    | Unbounded => Raise UnboundedError
    end).

(** ** Methods, dispatched on the receiver *)

Definition m_is_empty (P : value) : prog bool :=
  match P with
  | VPolyhedron p => Ret (poly_is_empty p)
  | _ => Raise AttributeError
  end.

Definition m_Hrep_generator (P : value) : prog (list Hrep_obj) :=
  match P with
  | VPolyhedron p => Ret (Hrepresentation p)
  | _ => Raise AttributeError
  end.

Definition m_base_ring (v : value) : prog ring :=
  match v with
  | VVector u => Ret (vec_ring u)
  | VMatrix M => Ret (mat_ring M)
  | VPolyhedron p => Ret (poly_base_ring p)
  | _ => Raise AttributeError
  end.

Definition m_nrows (A : value) : prog nat :=
  match A with
  | VMatrix M => Ret (mat_nrows M)
  | _ => Raise AttributeError
  end.

Definition m_ncols (A : value) : prog nat :=
  match A with
  | VMatrix M => Ret (mat_ncols M)
  | _ => Raise AttributeError
  end.

(** [A.row(i)] for [i] in [range(A.nrows())]. *)
Definition m_row (A : value) (i : nat) : prog (list R) :=
  match A with
  | VMatrix M =>
      match nth_error (mat_rows M) i with
      | Some r => Ret r
      | None => Raise IndexError
      end
  | _ => Raise AttributeError
  end.

Definition m_length (b : value) : prog nat :=
  match b with
  | VVector u => Ret (length (vec_entries u))
  | _ => Raise AttributeError
  end.

(** [b[i]] on a vector or on a list of numbers. *)
Definition num_item (b : value) (i : nat) : prog R :=
  match b with
  | VVector u =>
      match nth_error (vec_entries u) i with
      | Some x => Ret x
      | None => Raise IndexError
      end
  | VList l =>
      match nth_error l i with
      | Some (VNum x) => Ret x
      | Some _ => Raise TypeError
      | None => Raise IndexError
      end
  | _ => Raise TypeError
  end.

(** [l[i]] on a list. *)
Definition list_item (l : list value) (i : nat) : prog value :=
  match nth_error l i with
  | Some v => Ret v
  | None => Raise IndexError
  end.

(** ** polyhedron_to_Hrep *)

(** Lines 140-179.  In each branch the loop appends to the Python lists [A]
    and [b] (and [Aeq], [beq]); the results are built over [RDF]. *)
Definition polyhedron_to_Hrep (P : value) (separate_equality_constraints : bool)
  : prog value :=
  if negb separate_equality_constraints then
    P_gen <- m_Hrep_generator P ;;
    let '(A, b) :=
      fold_left (fun (Ab : list (list R) * list R) (pigen : Hrep_obj) =>
        let '(A, b) := Ab in
        if is_equation pigen then
          let pi_vec := Hvector pigen in
          let A := A ++ [vec_neg (tl pi_vec)] in
          let b := b ++ [hd 0 pi_vec] in
          let A := A ++ [tl pi_vec] in
          let b := b ++ [hd 0 pi_vec] in
          (A, b)
        else
          let pi_vec := Hvector pigen in
          let A := A ++ [vec_neg (tl pi_vec)] in
          let b := b ++ [hd 0 pi_vec] in
          (A, b)) P_gen ([], []) in
    Ret (VList [VMatrix (matrix_of RDF A); VVector (vector_of RDF b)])
  else
    P_gen <- m_Hrep_generator P ;;
    let '(A, b, Aeq, beq) :=
      fold_left (fun (st : list (list R) * list R * list (list R) * list R)
                     (pigen : Hrep_obj) =>
        let '(A, b, Aeq, beq) := st in
        if is_equation pigen then
          let pi_vec := Hvector pigen in
          let Aeq := Aeq ++ [vec_neg (tl pi_vec)] in
          let beq := beq ++ [hd 0 pi_vec] in
          (A, b, Aeq, beq)
        else
          let pi_vec := Hvector pigen in
          let A := A ++ [vec_neg (tl pi_vec)] in
          let b := b ++ [hd 0 pi_vec] in
          (A, b, Aeq, beq)) P_gen ([], [], [], []) in
    Ret (VList [VMatrix (matrix_of RDF A); VVector (vector_of RDF b);
                VMatrix (matrix_of RDF Aeq); VVector (vector_of RDF beq)]).

(** ** polyhedron_from_Hrep *)

(** Lines 234-302.  The two supported branches differ in the ring and the
    backend they hand to the constructor.  The values of this universe are Sage objects, so the
    [numpy.ndarray] conversion at the head of each branch does not apply, and
    the results of [A.change_ring(...)] and [b.change_ring(...)] are dropped
    by the source. *)
Definition polyhedron_from_Hrep (A b : value) (base_ring : ring) : prog value :=
  if ring_eqb base_ring RDF then
    ambient_dim <- m_ncols A ;;
    _ <- m_base_ring A ;;
    _ <- m_base_ring b ;;
    nrows <- m_nrows A ;;
    ieqs_list <- for_each (range nrows) (fun ieqs_list i =>
        row <- m_row A i ;;
        let ieqs_list := ieqs_list ++ [vec_neg row] in
        bi <- num_item b i ;;
        Ret (set_item ieqs_list i (bi :: nth i ieqs_list []))) [] ;;
    ncols <- m_ncols A ;;
    NewPolyhedron (mk_request ieqs_list RDF ncols "cdd")
                  (fun P => Ret (VPolyhedron P))
  else if ring_eqb base_ring QQ then
    ambient_dim <- m_ncols A ;;
    _ <- m_base_ring A ;;
    _ <- m_base_ring b ;;
    nrows <- m_nrows A ;;
    ieqs_list <- for_each (range nrows) (fun ieqs_list i =>
        row <- m_row A i ;;
        let ieqs_list := ieqs_list ++ [vec_neg row] in
        bi <- num_item b i ;;
        Ret (set_item ieqs_list i (bi :: nth i ieqs_list []))) [] ;;
    ncols <- m_ncols A ;;
    NewPolyhedron (mk_request ieqs_list QQ ncols "ppl")
                  (fun P => Ret (VPolyhedron P))
  else
    Raise ValueError.

(** ** chebyshev_center *)

Fixpoint dot_product (u v : list R) : R :=
  match u, v with
  | ui :: u', vi :: v' => ui * vi + dot_product u' v'
  | _, _ => 0
  end.

(** [[A, b] = l]. *)
Definition unpack2 (l : value) : prog (value * value) :=
  match l with
  | VList [A; b] => Ret (A, b)
  | VList _ => Raise ValueError
  | _ => Raise TypeError
  end.

(** The variables [x[i]] and [r[i]] of the two families the function
    creates, in this order, with the defaults of [new_variable()]. *)
Definition cheby_x (i : nat) : mipvar := (0%nat, i).
Definition cheby_r (i : nat) : mipvar := (1%nat, i).

(** Lines 321-354.  A row [v] of a Sage matrix has an entry for every column,
    so [v[j]] is read with [nth]. *)
Definition chebyshev_center (P A b : value) : prog value :=
  (* parse input *)
  let '(P, A, b, got_P, got_Ab) :=
    if negb (is_None P) then
      if is_None A && is_None b then (P, A, b, true, false)
      else if negb (is_None A) && is_None b then (VList [], P, A, false, true)
      else (P, A, b, false, false)
    else (P, A, b, false, negb (is_None A) && negb (is_None b)) in
  if got_Ab || got_P then
    Ab <- (if got_P then H <- polyhedron_to_Hrep P false ;; unpack2 H
           else Ret (A, b)) ;;
    let '(A, b) := Ab in
    base_ring <- m_base_ring A ;;
    let x := cheby_x in
    let r := cheby_r in
    n <- m_nrows A ;;
    m <- m_ncols A ;;
    len_b <- m_length b ;;
    if negb (n =? len_b)%nat then Ret (VList [])
    else
      constraints <- for_each (range n) (fun cs i =>
          v <- m_row A i ;;
          let norm := sqrt (dot_product v v) in
          bi <- num_item b i ;;
          Ret (cs ++ [(map (fun j => (nth j v 0, x j)) (range m)
                         ++ [(norm, r 0%nat)], bi)])) [] ;;
      let f := map (fun i => (0, x i)) (range m) ++ [(1, r 0%nat)] in
      sol <- mip_solve (mk_MILP None f constraints) ;;
      let cheby_center :=
        map (fun i => coerce base_ring (snd sol (x i))) (range m) in
      Ret (VVector (mk_vector base_ring cheby_center))
  else
    Raise ValueError.

(** ** supp_fun_polyhedron *)

Definition supp_x (i : nat) : mipvar := (0%nat, i).

(** The constraint [A * x <= b]: one row per row of [A]. *)
Definition matrix_constraint (A b : value) (x : nat -> mipvar)
  : prog (list (linfun * R)) :=
  match A, b with
  | VMatrix M, VVector u =>
      if (mat_nrows M =? length (vec_entries u))%nat then
        Ret (map (fun rb : list R * R =>
                    (map (fun j => (nth j (fst rb) 0, x j))
                         (range (mat_ncols M)), snd rb))
                 (combine (mat_rows M) (vec_entries u)))
      else Raise TypeError
  | _, _ => Raise TypeError
  end.

(** Lines 466-479: the rows [(A, b)] that the function reads off a
    polyhedron object, one row per constraint, equations like inequalities.
    The constraint vectors of an object all have the length of the first
    one, so [A.set_row] always fits. *)
Definition supp_fun_extract (P : value) : prog (value * value) :=
  base_ring <- m_base_ring P ;;
  Hrep <- m_Hrep_generator P ;;
  let m := length Hrep in
  h0 <- match Hrep with
        | h0 :: _ => Ret h0
        | [] => Raise IndexError
        end ;;
  let n := (length (Hvector h0) - 1)%nat in
  let b := zero_vector m in
  let A := repeat (zero_vector n) m in
  P_gen <- m_Hrep_generator P ;;
  let '(A, b, _) :=
    fold_left (fun (st : list (list R) * list R * nat) (pigen : Hrep_obj) =>
      let '(A, b, i) := st in
      let pi_vec := Hvector pigen in
      let A := set_item A i (vec_neg (tl pi_vec)) in
      let b := set_item b i (hd 0 pi_vec) in
      (A, b, S i)) P_gen (A, b, 0%nat) in
  Ret (VMatrix (mk_matrix base_ring n A), VVector (mk_vector base_ring b)).

(** Lines 456-499, the function after its emptiness test: the LP is
    formulated, solved and its answer returned.  [verbose] only prints; the printed text is not part
    of the result. *)
Definition supp_fun_solve (P : value) (d : list R)
    (verbose return_xopt : bool) (solver : string) : prog value :=
  let x := supp_x in
  (* objective function *)
  let obj := map (fun i => (nth i d 0, x i)) (range (length d)) in
  Ab <- match P with
        | VList l =>
            A <- list_item l 0 ;;
            b <- list_item l 1 ;;
            Ret (A, b)
        | _ => supp_fun_extract P
        end ;;
  let '(A, b) := Ab in
  cs <- matrix_constraint A b x ;;
  ncols <- m_ncols A ;;
  sol <- mip_solve (mk_MILP (Some solver) obj cs) ;;
  let oval := fst sol in
  let xopt := map (fun i => (i, snd sol (x i)))
                  (range (Nat.max (length d) ncols)) in
  if return_xopt then Ret (VList [VNum oval; VDict xopt])
  else Ret (VNum oval).

(** Lines 452-499.  The direction [d] is a vector or a list; the function
    reads [len(d)] and [d[i]]. *)
Definition supp_fun_polyhedron (P : value) (d : list R)
    (verbose return_xopt : bool) (solver : string) : prog value :=
  (* avoid formulating the LP if P = [] *)
  empty <- m_is_empty P ;;
  if empty then Ret (VNum 0)
  else supp_fun_solve P d verbose return_xopt solver.

(** ** radius *)

Definition py_abs (v : value) : prog R :=
  match v with
  | VNum x => Ret (Rabs x)
  | _ => Raise TypeError
  end.

(** Lines 378-399.  The test [aux_sf >= r] is decided on the reals; a value
    that is not a list falls through the [if] and the function returns
    [None]. *)
Definition radius (P : value) : prog value :=
  match P with
  | VList l =>
      A <- list_item l 0 ;;
      b <- list_item l 1 ;;
      (* obtain dimension of the ambient space *)
      n <- m_ncols A ;;
      r <- for_each (range n) (fun r i =>
          (* generate canonical direction *)
          let d := zero_vector n in
          let d := set_item d i 1 in
          sf <- supp_fun_polyhedron (VList [A; b]) d false false "GLPK" ;;
          aux_sf <- py_abs sf ;;
          let r := if Rle_dec r aux_sf then aux_sf else r in
          (* change sign *)
          let d := set_item d i (-1) in
          sf <- supp_fun_polyhedron (VList [A; b]) d false false "GLPK" ;;
          aux_sf <- py_abs sf ;;
          let r := if Rle_dec r aux_sf then aux_sf else r in
          Ret r) 0 ;;
      let snorm := r in
      Ret (VNum snorm)
  | _ => Ret VNone
  end.

(** ** BoxInfty *)

(** [[base_ring(xi) for xi in l]]. *)
Fixpoint cast_list (K : ring) (l : list value) : prog (list R) :=
  match l with
  | [] => Ret []
  | VNum x :: l' => xs <- cast_list K l' ;; Ret (coerce K x :: xs)
  | _ :: _ => Raise TypeError
  end.

Definition cast_seq (K : ring) (v : value) : prog (list R) :=
  match v with
  | VList l => cast_list K l
  | VVector u => Ret (map (coerce K) (vec_entries u))
  | _ => Raise TypeError
  end.

Definition cast_num (K : ring) (v : value) : prog R :=
  match v with
  | VNum x => Ret (coerce K x)
  | _ => Raise TypeError
  end.

(** Modelled from the spec: the helper [_make_listlist] is called by
    [BoxInfty] and is not defined in the module.  The lengths are "a sequence
    of n (min, max) pairs"; the helper hands them on as a list of lists. *)
Fixpoint _make_listlist_aux (l : list value) : prog (list (list value)) :=
  match l with
  | [] => Ret []
  | VList p :: l' => ps <- _make_listlist_aux l' ;; Ret (p :: ps)
  | _ :: _ => Raise TypeError
  end.

Definition _make_listlist (lengths : value) : prog (list (list value)) :=
  match lengths with
  | VList l => _make_listlist_aux l
  | _ => Raise TypeError
  end.

(** [[[base_ring(xi) for xi in l] for l in lengths]]. *)
Fixpoint cast_listlist (K : ring) (ls : list (list value))
  : prog (list (list R)) :=
  match ls with
  | [] => Ret []
  | l :: ls' =>
      xs <- cast_list K l ;;
      xss <- cast_listlist K ls' ;;
      Ret (xs :: xss)
  end.

Definition real_item (l : list R) (i : nat) : prog R :=
  match nth_error l i with
  | Some x => Ret x
  | None => Raise IndexError
  end.

(** Lines 544-614.  A pair [(min, max)] of [lengths] is given as a
    sequence of two numbers. *)
Definition BoxInfty (lengths center radius : value) (base_ring : ring)
    (return_HSpaceRep : bool) : prog value :=
  (* Guess input *)
  let '(lengths, center, radius, got_lengths, got_center_and_radius) :=
    if negb (is_None lengths) then
      if is_None center && is_None radius then
        (lengths, center, radius, true, false)
      else if negb (is_None center) && is_None radius then
        (VList [], lengths, center, false, true)
      else (lengths, center, radius, false, false)
    else
      (lengths, center, radius, false,
       negb (is_None center) && negb (is_None radius)) in
  Ab <- (if got_center_and_radius then
           (* Given center and radius; cast (optional) *)
           center <- cast_seq base_ring center ;;
           radius <- cast_num base_ring radius ;;
           let ndim := length center in
           let A := repeat (zero_vector ndim) (2 * ndim) in
           let b := zero_vector (2 * ndim) in
           let '(A, b, _) :=
             fold_left (fun (st : list (list R) * list R * nat) (i : nat) =>
               let '(A, b, count) := st in
               let diri := zero_vector ndim in
               let diri := set_item diri i 1 in
               (* external bound *)
               let A := set_item A count diri in
               let b := set_item b count (nth i center 0 + radius) in
               let count := S count in
               (* internal bound *)
               let A := set_item A count (vec_neg diri) in
               let b := set_item b count (- (nth i center 0 - radius)) in
               let count := S count in
               (A, b, count)) (range ndim) (A, b, 0%nat) in
           Ret (VMatrix (mk_matrix base_ring ndim A),
                VVector (mk_vector base_ring b))
         else if got_lengths then
           (* Given the length of each side as tuples (min, max);
              clean up the argument and cast *)
           lengths <- _make_listlist lengths ;;
           lengths <- cast_listlist base_ring lengths ;;
           let ndim := length lengths in
           let A := repeat (zero_vector ndim) (2 * ndim) in
           let b := zero_vector (2 * ndim) in
           st <- for_each (range ndim)
             (fun (st : list (list R) * list R * nat) (i : nat) =>
               let '(A, b, count) := st in
               let diri := zero_vector ndim in
               let diri := set_item diri i 1 in
               (* external bound *)
               let A := set_item A count diri in
               hi <- real_item (nth i lengths []) 1 ;;
               let b := set_item b count hi in
               let count := S count in
               (* internal bound *)
               let A := set_item A count (vec_neg diri) in
               lo <- real_item (nth i lengths []) 0 ;;
               let b := set_item b count (- lo) in
               let count := S count in
               Ret (A, b, count)) (A, b, 0%nat) ;;
           let '(A, b, _) := st in
           Ret (VMatrix (mk_matrix base_ring ndim A),
                VVector (mk_vector base_ring b))
         else
           Raise ValueError) ;;
  let '(A, b) := Ab in
  if negb return_HSpaceRep then polyhedron_from_Hrep A b base_ring
  else Ret (VList [A; b]).

(** * Regions, contracts and the problems the functions formulate *)

(** ** Feasible regions *)

(** A point gives every coordinate a value; a row only reads the
    coordinates it has coefficients for. *)
Definition point : Type := nat -> R.

Fixpoint vdot_from (k : nat) (a : list R) (x : point) : R :=
  match a with
  | [] => 0
  | ai :: a' => ai * x k + vdot_from (S k) a' x
  end.

Definition vdot (a : list R) (x : point) : R := vdot_from 0 a x.

(** [{x : A x <= b}] for a half-space model. *)
Definition Hrep_feasible (A : matrix) (b : vector) (x : point) : Prop :=
  Forall (fun rb : list R * R => vdot (fst rb) x <= snd rb)
         (combine (mat_rows A) (vec_entries b)).

(** The region of a polyhedron object. *)
Definition constraint_holds (h : Hrep_obj) (x : point) : Prop :=
  if is_equation h then h_offset h + vdot (h_coeffs h) x = 0
  else 0 <= h_offset h + vdot (h_coeffs h) x.

Definition poly_contains (P : polyhedron) (x : point) : Prop :=
  Forall (fun h => constraint_holds h x) (Hrepresentation P).

(** A region is full-dimensional when it contains a small box around one of
    its points. *)
Definition full_dimensional (S : point -> Prop) : Prop :=
  exists x eps, 0 < eps /\ forall y, (forall j, Rabs (y j - x j) < eps) -> S y.

(** The point [x] moved by [t] along the axis [j]. *)
Definition bump (x : point) (j : nat) (t : R) : point :=
  fun i => if (i =? j)%nat then x i + t else x i.

(** The point with the coordinates [c]. *)
Definition point_of (c : list R) : point := fun j => nth j c 0.

(** The box of center [c] and radius [r] as a region. *)
Definition in_box (c : list R) (r : R) (x : point) : Prop :=
  forall i, (i < length c)%nat -> nth i c 0 - r <= x i <= nth i c 0 + r.

(** ** The contracts of the external collaborators *)

(** A row [[offset, coeff_1, ..., coeff_n]] handed to the constructor as an
    inequality stands for [offset + coeff . x >= 0]. *)
Definition ieq_holds (row : list R) (x : point) : Prop :=
  0 <= hd 0 row + vdot (tl row) x.

Definition ieqs_contain (ieqs : list (list R)) (x : point) : Prop :=
  Forall (fun row => ieq_holds row x) ieqs.

(** The constructor may reorder, rescale and reduce the rows; the object it
    returns describes the region of the rows it was given, and each of its
    constraint vectors has one coefficient per coordinate of the ambient
    space. *)
Definition engine_answer_ok (req : ieqs_request) (P : polyhedron) : Prop :=
  (forall x, poly_contains P x <-> ieqs_contain (req_ieqs req) x) /\
  Forall (fun h => length (h_coeffs h) = req_ambient_dim req)
         (Hrepresentation P).

(** Every answer of the solver and of the engine along the run of a program
    honours its contract. *)
Fixpoint answers_ok {A : Type} (solve : MILP -> lp_status)
    (engine : ieqs_request -> polyhedron) (p : prog A) : Prop :=
  match p with
  | Ret _ => True
  | Raise _ => True
  | Solve lp k =>
      solver_answer_ok lp (solve lp) /\ answers_ok solve engine (k (solve lp))
  | NewPolyhedron req k =>
      engine_answer_ok req (engine req) /\
      answers_ok solve engine (k (engine req))
  end.

(** ** The rows of the converter *)

(** The rows of [(A, b)] that [polyhedron_to_Hrep] appends for one
    constraint when equalities are not separated. *)
Definition Hrep_rows_of (h : Hrep_obj) : list (list R * R) :=
  if is_equation h then
    [(vec_neg (h_coeffs h), h_offset h); (h_coeffs h, h_offset h)]
  else [(vec_neg (h_coeffs h), h_offset h)].

Definition Hrep_rows (P : polyhedron) : list (list R * R) :=
  flat_map Hrep_rows_of (Hrepresentation P).

(** The half-space model that [polyhedron_to_Hrep] returns for an object. *)
Definition to_Hrep_A (P : polyhedron) : matrix :=
  matrix_of RDF (map fst (Hrep_rows P)).

Definition to_Hrep_b (P : polyhedron) : vector :=
  vector_of RDF (map snd (Hrep_rows P)).

(** The rows [[b_i, -A_i1, ..., -A_in]] that [polyhedron_from_Hrep] hands to
    the constructor. *)
Definition ieqs_of (A : matrix) (b : vector) : list (list R) :=
  map (fun rb : list R * R => snd rb :: vec_neg (fst rb))
      (combine (mat_rows A) (vec_entries b)).

(** The round trip of the converter:
    [polyhedron_to_Hrep(polyhedron_from_Hrep(A, b, base_ring))]. *)
Definition round_trip (A : matrix) (b : vector) (base_ring : ring)
  : prog value :=
  P <- polyhedron_from_Hrep (VMatrix A) (VVector b) base_ring ;;
  polyhedron_to_Hrep P false.

(** ** The rows of a box *)

(** The two rows of [BoxInfty] for the axis [i]: the external bound
    [x_i <= hi] and the internal bound [-x_i <= -lo]. *)
Definition axis_rows (n : nat) (i : nat) (lo hi : R) : list (list R * R) :=
  [(set_item (zero_vector n) i 1, hi);
   (vec_neg (set_item (zero_vector n) i 1), - lo)].

(** The rows of the box of center [c] and radius [r]. *)
Definition box_rows (c : list R) (r : R) : list (list R * R) :=
  flat_map (fun i => axis_rows (length c) i (nth i c 0 - r) (nth i c 0 + r))
           (range (length c)).

Definition box_A (K : ring) (c : list R) (r : R) : matrix :=
  mk_matrix K (length c) (map fst (box_rows c r)).

Definition box_b (K : ring) (c : list R) (r : R) : vector :=
  mk_vector K (map snd (box_rows c r)).

(** What [polyhedron_from_Hrep] asks of the constructor for the box. *)
Definition box_request (K : ring) (c : list R) (r : R) : ieqs_request :=
  mk_request (ieqs_of (box_A K c r) (box_b K c r)) K (length c)
             (match K with RDF => "cdd" | _ => "ppl" end).

(** ** The linear programs of the queries *)

(** The constraint that [chebyshev_center] adds for a row [v] of [A] and its
    right-hand side: [sum_j v[j]*x[j] + norm(v)*r[0] <= b[i]]. *)
Definition cheby_row_constraint (m : nat) (rb : list R * R) : linfun * R :=
  (map (fun j => (nth j (fst rb) 0, cheby_x j)) (range m)
     ++ [(sqrt (dot_product (fst rb) (fst rb)), cheby_r 0%nat)], snd rb).

Definition cheby_objective (m : nat) : linfun :=
  map (fun i => (0, cheby_x i)) (range m) ++ [(1, cheby_r 0%nat)].

Definition cheby_lp (A : matrix) (b : vector) : MILP :=
  mk_MILP None (cheby_objective (mat_ncols A))
    (map (cheby_row_constraint (mat_ncols A))
         (combine (mat_rows A) (vec_entries b))).

(** The margin of [s] fits every row of [rows] at the point of [s]: the
    constraints of [chebyshev_center], read on rows. *)
Definition cheby_fits (rows : list (list R * R)) (s : assignment) : Prop :=
  Forall (fun rb : list R * R =>
            vdot (fst rb) (fun j => s (cheby_x j))
            + sqrt (dot_product (fst rb) (fst rb)) * s (cheby_r 0%nat)
            <= snd rb) rows.

(** The values [xs] for the variables [x] and [rho] for the margin. *)
Definition cheby_point (xs : list R) (rho : R) : assignment :=
  fun v => if (fst v =? 0)%nat then nth (snd v) xs 0 else rho.

(** The LP that [supp_fun_polyhedron] formulates after its emptiness test
    for a half-space model: maximise [sum_i d[i]*x[i]] subject to
    [A * x <= b]. *)
Definition supp_lp (A : matrix) (b : vector) (d : list R) (solver : string)
  : MILP :=
  mk_MILP (Some solver)
    (map (fun i => (nth i d 0, supp_x i)) (range (length d)))
    (map (fun rb : list R * R =>
            (map (fun j => (nth j (fst rb) 0, supp_x j))
                 (range (mat_ncols A)), snd rb))
         (combine (mat_rows A) (vec_entries b))).

(** ** Callers *)

(** [[A, b] = BoxInfty(center=c, radius=r, base_ring=K, return_HSpaceRep=True)]
    followed by [chebyshev_center(A=A, b=b)]. *)
Definition chebyshev_center_of_BoxInfty (c : list R) (r : R) (K : ring)
  : prog value :=
  Ab <- BoxInfty VNone (VList (map VNum c)) (VNum r) K true ;;
  AB <- unpack2 Ab ;;
  chebyshev_center VNone (fst AB) (snd AB).

(** [P = BoxInfty(center=c, radius=r, base_ring=K)] followed by
    [chebyshev_center(P)]. *)
Definition chebyshev_center_of_BoxInfty_object (c : list R) (r : R) (K : ring)
  : prog value :=
  P <- BoxInfty VNone (VList (map VNum c)) (VNum r) K false ;;
  chebyshev_center P VNone VNone.

(** ** Inputs and collaborators of the examples *)

(** The polyhedron [{x : x = -1}] of the line: one equation, [1 + x = 0]. *)
Definition point_minus_one : polyhedron :=
  mk_polyhedron QQ 1 [mk_Hrep_obj true 1 [1]] false.

(** The infeasible model [x <= -1], [-x <= -1] of the line. *)
Definition infeasible_A : matrix := mk_matrix QQ 1 [[1]; [-1]].
Definition infeasible_b : vector := mk_vector QQ [-1; -1].

(** The segment [[-1, 1]] as a half-space model. *)
Definition segment_A : matrix := mk_matrix QQ 1 [[1]; [-1]].
Definition segment_b : vector := mk_vector QQ [1; 1].

(** The box of the sides [[0, 2]] and [[0, 4]], as [BoxInfty] receives it. *)
Definition lengths_2_4 : value :=
  VList [VList [VNum 0; VNum 2]; VList [VNum 0; VNum 4]].

(** An engine that keeps the rows it is given, each as an inequality. *)
Definition plain_engine (req : ieqs_request) : polyhedron :=
  mk_polyhedron (req_base_ring req) (req_ambient_dim req)
    (map (fun row => mk_Hrep_obj false (hd 0 row) (tl row)) (req_ieqs req))
    false.

(** A solver that answers every problem with one fixed status. *)
Definition fixed_solver (st : lp_status) (lp : MILP) : lp_status := st.

(** ** Further regions and inputs *)

(** [{x : Aeq x = beq}] for the equality part of a half-space model. *)
Definition Hrep_eq_feasible (Aeq : matrix) (beq : vector) (x : point) : Prop :=
  Forall (fun rb : list R * R => vdot (fst rb) x = snd rb)
         (combine (mat_rows Aeq) (vec_entries beq)).

(** The row [(-coeff, offset)] that the converter writes for a constraint. *)
Definition negated_row (h : Hrep_obj) : list R * R :=
  (vec_neg (h_coeffs h), h_offset h).

(** The polyhedron [{x : x = 0}] of the line: one equation, [0 + x = 0]. *)
Definition point_zero : polyhedron :=
  mk_polyhedron QQ 1 [mk_Hrep_obj true 0 [1]] false.

(** The converter applied both ways to an object:
    [[A, b] = polyhedron_to_Hrep(P)] followed by
    [polyhedron_from_Hrep(A, b, base_ring)]. *)
Definition object_round_trip (P : polyhedron) (base_ring : ring)
  : prog value :=
  Ab <- polyhedron_to_Hrep (VPolyhedron P) false ;;
  AB <- unpack2 Ab ;;
  polyhedron_from_Hrep (fst AB) (snd AB) base_ring.

(** The segment [[-1, 1]] as a polytope object: [1 - x >= 0], [1 + x >= 0]. *)
Definition segment_object : polyhedron :=
  mk_polyhedron QQ 1 [mk_Hrep_obj false 1 [-1]; mk_Hrep_obj false 1 [1]] false.

(** ** The box of a list of sides *)

(** The argument [lengths] of [BoxInfty]: a list of lists of numbers. *)
Definition lengths_value (L : list (list R)) : value :=
  VList (map (fun l => VList (map VNum l)) L).

(** The rows [BoxInfty] writes for the sides [L]: for the axis [i] the
    bounds [L[i][0]] and [L[i][1]]. *)
Definition lengths_rows (L : list (list R)) : list (list R * R) :=
  flat_map (fun i => axis_rows (length L) i (nth 0 (nth i L []) 0)
                               (nth 1 (nth i L []) 0))
           (range (length L)).

Definition lengths_A (K : ring) (L : list (list R)) : matrix :=
  mk_matrix K (length L) (map fst (lengths_rows L)).

Definition lengths_b (K : ring) (L : list (list R)) : vector :=
  mk_vector K (map snd (lengths_rows L)).

(** The product of the intervals [[L[i][0], L[i][1]]]. *)
Definition in_intervals (L : list (list R)) (x : point) : Prop :=
  forall i, (i < length L)%nat ->
    nth 0 (nth i L []) 0 <= x i <= nth 1 (nth i L []) 0.

(** The sides of the box of center [c] and radius [r]. *)
Definition sides_of (c : list R) (r : R) : list (list R) :=
  map (fun ci => [ci - r; ci + r]) c.

(** ** The margin of a point *)

(** The margin [t] fits at the point [y]: for every row,
    [row . y + norm(row) * t <= b_i].  With [0 <= t] the ball of radius [t]
    around [y] lies in [{x : A x <= b}]. *)
Definition margin_fits (A : matrix) (b : vector) (y : point) (t : R) : Prop :=
  Forall (fun rb : list R * R =>
            vdot (fst rb) y + sqrt (dot_product (fst rb) (fst rb)) * t
            <= snd rb)
         (combine (mat_rows A) (vec_entries b)).

(** The values of the LP of [chebyshev_center] at the point [y] with the
    margin [t]. *)
Definition cheby_assign (y : point) (t : R) : assignment :=
  fun v => if (fst v =? 0)%nat then y (snd v) else t.

(** A row of zeros with a negative right-hand side. *)
Definition zero_row_negative (rb : list R * R) : Prop :=
  Forall (fun a => a = 0) (fst rb) /\ snd rb < 0.

(** The model [0 * x <= -1] of the line, and the model of the plane with no
    row. *)
Definition zero_row_A : matrix := mk_matrix QQ 1 [[0]].
Definition zero_row_b : vector := mk_vector QQ [-1].
Definition no_row_A : matrix := mk_matrix QQ 2 [].
Definition no_row_b : vector := mk_vector QQ [].

(** ** The support function of a box *)

(** [sum_i |d_i|]. *)
Fixpoint norm1 (d : list R) : R :=
  match d with
  | [] => 0
  | a :: d' => Rabs a + norm1 d'
  end.

(** The corner of the box of center [c] and radius [r] towards [d]. *)
Definition box_corner (c d : list R) (r : R) : point :=
  fun i => nth i c 0 + (if Rle_dec 0 (nth i d 0) then r else - r).

(** [supp_fun_polyhedron(BoxInfty(center=c, radius=r, base_ring=K), d)]. *)
Definition supp_fun_of_BoxInfty (c : list R) (r : R) (K : ring) (d : list R)
  : prog value :=
  P <- BoxInfty VNone (VList (map VNum c)) (VNum r) K false ;;
  supp_fun_polyhedron P d false false "GLPK".

(** * Properties *)

(** [bind_head H] rewrites the first computation of a sequence with the
    equation [H], which states its result up to conversion. *)
Ltac bind_head H :=
  match goal with
  | |- bind ?p _ = _ =>
      match type of H with
      | _ = ?q =>
          let E := fresh "E" in
          assert (E : p = q) by exact H; rewrite E; clear E; cbn [bind]
      end
  end.

(** [fold_left_with H] rewrites the loop of the goal with the equation [H],
    which states its final state up to conversion. *)
Ltac fold_left_with H :=
  match goal with
  | |- context [fold_left ?f ?l ?st] =>
      match type of H with
      | _ = ?q =>
          let E := fresh "E" in
          assert (E : fold_left f l st = q) by exact H; rewrite E; clear E
      end
  end.

(** ** The linear program of [chebyshev_center] *)

(** The loop over the rows succeeds when [b] is as long as [A] has rows. *)
Lemma cheby_constraints_loop (K Kb : ring) (nc m : nat) :
  forall (rows pre : list (list R)) (bs preb : list R) (cs : list (linfun * R)),
    length pre = length preb ->
    length rows = length bs ->
    for_each (seq (length pre) (length rows)) (fun cs i =>
        v <- m_row (VMatrix (mk_matrix K nc (pre ++ rows))) i ;;
        let norm := sqrt (dot_product v v) in
        bi <- num_item (VVector (mk_vector Kb (preb ++ bs))) i ;;
        Ret (cs ++ [(map (fun j => (nth j v 0, cheby_x j)) (range m)
                       ++ [(norm, cheby_r 0%nat)], bi)])) cs
    = Ret (cs ++ map (cheby_row_constraint m) (combine rows bs)).
Proof.
  induction rows as [|v rows IH]; intros pre bs preb cs Hpre Hlen.
  - simpl. now rewrite app_nil_r.
  - destruct bs as [|bi bs]; [discriminate|].
    simpl in Hlen. injection Hlen as Hlen.
    cbn [length seq for_each m_row mat_rows num_item vec_entries].
    rewrite nth_error_app2, Nat.sub_diag by lia.
    assert (Hb : nth_error (preb ++ bi :: bs) (length pre) = Some bi)
      by (rewrite Hpre, nth_error_app2, Nat.sub_diag by lia; reflexivity).
    rewrite Hb.
    cbn [nth_error bind].
    specialize (IH (pre ++ [v]) bs (preb ++ [bi])).
    rewrite !length_app, Nat.add_1_r in IH. cbn [length] in IH.
    rewrite <- !app_assoc in IH. cbn [app] in IH.
    rewrite IH by (rewrite ?Nat.add_1_r; congruence).
    rewrite <- app_assoc. reflexivity.
Qed.

(** In [(A, b)] mode with matching sizes the function formulates [cheby_lp],
    solves it and returns the coordinates of the solver's point. *)
Lemma chebyshev_center_Ab (A : matrix) (b : vector) :
  mat_nrows A = length (vec_entries b) ->
  chebyshev_center VNone (VMatrix A) (VVector b)
  = (sol <- mip_solve (cheby_lp A b) ;;
     Ret (VVector (mk_vector (mat_ring A)
            (map (fun i => coerce (mat_ring A) (snd sol (cheby_x i)))
                 (range (mat_ncols A)))))).
Proof.
  intros Hlen. destruct A as [K nc rows], b as [Kb bs].
  unfold mat_nrows in Hlen. cbn [mat_rows vec_entries] in Hlen.
  unfold chebyshev_center.
  cbn [is_None negb andb orb bind m_base_ring m_nrows m_ncols m_length
       mat_ring mat_ncols mat_rows vec_entries mat_nrows].
  unfold mat_nrows. cbn [mat_rows].
  rewrite Hlen, Nat.eqb_refl. cbn [negb].
  rewrite <- Hlen.
  pose proof (cheby_constraints_loop K Kb nc nc rows [] bs [] [] eq_refl Hlen)
    as Hloop.
  cbn [app length] in Hloop. unfold range at 1.
  bind_head Hloop. reflexivity.
Qed.

(** ** Input parsing and early returns of [chebyshev_center] *)

Lemma cheby_sizes_differ (A : matrix) (b : vector) :
  mat_nrows A <> length (vec_entries b) ->
  chebyshev_center VNone (VMatrix A) (VVector b) = Ret (VList []).
Proof.
  intros Hne. unfold chebyshev_center.
  cbn [is_None negb andb orb bind m_base_ring m_nrows m_ncols m_length].
  destruct (Nat.eqb_spec (mat_nrows A) (length (vec_entries b))) as [E|E].
  - contradiction.
  - reflexivity.
Qed.

(** C8: when the number of rows of [A] differs from the length of [b],
    [chebyshev_center(A=A, b=b)] returns the empty list: the program is a
    plain return, so no exception is raised and no LP is handed to the
    solver, whatever the solver and the engine are. *)
Theorem chebyshev_center_size_mismatch :
  forall (A : matrix) (b : vector),
    mat_nrows A <> length (vec_entries b) ->
    chebyshev_center VNone (VMatrix A) (VVector b) = Ret (VList []) /\
    forall solve engine,
      run solve engine (chebyshev_center VNone (VMatrix A) (VVector b))
      = Ok (VList []).
Proof.
  intros A b Hne. rewrite (cheby_sizes_differ A b Hne).
  split; [reflexivity | intros; reflexivity].
Qed.

Lemma chebyshev_center_size_mismatch_witness :
  mat_nrows infeasible_A <> length (vec_entries (mk_vector QQ [1])) /\
  chebyshev_center VNone (VMatrix infeasible_A) (VVector (mk_vector QQ [1]))
  = Ret (VList []).
Proof.
  split.
  - unfold mat_nrows, infeasible_A. simpl. lia.
  - apply (chebyshev_center_size_mismatch infeasible_A (mk_vector QQ [1])).
    unfold mat_nrows, infeasible_A. simpl. lia.
Defined.


(** ** The rows of [polyhedron_to_Hrep] *)

Lemma to_Hrep_loop (hs : list Hrep_obj) :
  forall (A : list (list R)) (b : list R),
    fold_left (fun (Ab : list (list R) * list R) (pigen : Hrep_obj) =>
        let '(A, b) := Ab in
        if is_equation pigen then
          let pi_vec := Hvector pigen in
          let A := A ++ [vec_neg (tl pi_vec)] in
          let b := b ++ [hd 0 pi_vec] in
          let A := A ++ [tl pi_vec] in
          let b := b ++ [hd 0 pi_vec] in
          (A, b)
        else
          let pi_vec := Hvector pigen in
          let A := A ++ [vec_neg (tl pi_vec)] in
          let b := b ++ [hd 0 pi_vec] in
          (A, b)) hs (A, b)
    = (A ++ map fst (flat_map Hrep_rows_of hs),
       b ++ map snd (flat_map Hrep_rows_of hs)).
Proof.
  induction hs as [|h hs IH]; intros A b.
  - simpl. now rewrite !app_nil_r.
  - cbn [fold_left flat_map]. unfold Hrep_rows_of at 1 3.
    destruct (is_equation h); cbn [Hvector hd tl]; rewrite IH;
      rewrite !map_app, <- !app_assoc; reflexivity.
Qed.

(** Without separation the converter returns the rows [Hrep_rows P], the
    coefficients in [A] and the offsets in [b]. *)
Lemma polyhedron_to_Hrep_rows (P : polyhedron) :
  polyhedron_to_Hrep (VPolyhedron P) false
  = Ret (VList [VMatrix (matrix_of RDF (map fst (Hrep_rows P)));
                VVector (vector_of RDF (map snd (Hrep_rows P)))]).
Proof.
  unfold polyhedron_to_Hrep. cbn [negb m_Hrep_generator bind].
  rewrite to_Hrep_loop. reflexivity.
Qed.

Lemma map_coerce (K : ring) (l : list R) : map (coerce K) l = l.
Proof. unfold coerce. apply map_id. Qed.

Lemma map_map_coerce (K : ring) (l : list (list R)) :
  map (map (coerce K)) l = l.
Proof.
  induction l as [|r l IH]; [reflexivity|].
  cbn [map]. now rewrite map_coerce, IH.
Qed.

(** ** C10: the arguments of [chebyshev_center] *)

Lemma chebyshev_center_positional (X Y : value) :
  X <> VNone -> Y <> VNone ->
  chebyshev_center X Y VNone = chebyshev_center VNone X Y.
Proof.
  intros HX HY. unfold chebyshev_center.
  destruct X; try contradiction; destruct Y; try contradiction; reflexivity.
Qed.

Lemma chebyshev_center_polyhedron (P : polyhedron) :
  chebyshev_center (VPolyhedron P) VNone VNone
  = chebyshev_center VNone
      (VMatrix (matrix_of RDF (map fst (Hrep_rows P))))
      (VVector (vector_of RDF (map snd (Hrep_rows P)))).
Proof.
  unfold chebyshev_center at 1.
  cbn [is_None negb andb orb].
  rewrite polyhedron_to_Hrep_rows. reflexivity.
Qed.

Lemma chebyshev_center_Ab_no_ValueError (A b : value) :
  A <> VNone -> b <> VNone ->
  chebyshev_center VNone A b <> Raise ValueError.
Proof.
  intros HA Hb.
  destruct A as [| | | | |M|]; try contradiction;
    try (destruct b; try contradiction; cbn; discriminate).
  destruct b as [| | | |u| |]; try contradiction;
    try (cbn; discriminate).
  destruct (Nat.eq_dec (mat_nrows M) (length (vec_entries u))) as [E|E].
  - rewrite (chebyshev_center_Ab M u E). cbn. discriminate.
  - rewrite (cheby_sizes_differ M u E). discriminate.
Qed.

(** C10: [chebyshev_center(X, Y)], with a matrix and a vector as its two
    positional arguments, is the program of [chebyshev_center(A=X, b=Y)];
    and the function answers with [ValueError] exactly when it is given no
    polytope and an incomplete pair, or a polytope together with [b]. *)
Theorem chebyshev_center_two_positional :
  (forall (X : matrix) (Y : vector),
      chebyshev_center (VMatrix X) (VVector Y) VNone
      = chebyshev_center VNone (VMatrix X) (VVector Y)) /\
  (forall P A b : value,
      chebyshev_center P A b = Raise ValueError <->
      (P = VNone /\ (A = VNone \/ b = VNone)) \/ (P <> VNone /\ b <> VNone)).
Proof.
  split.
  - intros X Y. apply chebyshev_center_positional; discriminate.
  - intros P A b. split.
    + intros H.
      destruct (is_None P) eqn:EP.
      * left. destruct P; try discriminate. split; [reflexivity|].
        destruct (is_None A) eqn:EA; [destruct A; try discriminate; now left|].
        destruct (is_None b) eqn:Eb; [destruct b; try discriminate; now right|].
        exfalso. revert H. apply chebyshev_center_Ab_no_ValueError.
        -- intros ->. discriminate.
        -- intros ->. discriminate.
      * destruct (is_None b) eqn:Eb.
        -- exfalso. destruct b; try discriminate.
           destruct (is_None A) eqn:EA.
           ++ destruct A; try discriminate.
              destruct P as [| | | | | |Q]; try discriminate.
              rewrite chebyshev_center_polyhedron in H.
              revert H. apply chebyshev_center_Ab_no_ValueError; discriminate.
           ++ rewrite chebyshev_center_positional in H.
              ** revert H. apply chebyshev_center_Ab_no_ValueError.
                 --- intros ->. discriminate.
                 --- intros ->. discriminate.
              ** intros ->. discriminate.
              ** intros ->. discriminate.
        -- right. split; intros ->; discriminate.
    + intros [[-> [-> | ->]] | [HP Hb]].
      * destruct b; reflexivity.
      * destruct A; reflexivity.
      * destruct P; try contradiction; destruct b; try contradiction;
          destruct A; reflexivity.
Qed.

(** ** C9: the ring of what [polyhedron_to_Hrep] returns *)

(** C9: whatever the base ring of the polytope object, the matrices and
    vectors that [polyhedron_to_Hrep] returns are over [RDF]: [(A, b)]
    without separation, and [(A, b, Aeq, beq)] with it. *)
Theorem polyhedron_to_Hrep_returns_RDF :
  forall P : polyhedron,
    (exists A b,
        polyhedron_to_Hrep (VPolyhedron P) false
        = Ret (VList [VMatrix A; VVector b]) /\
        mat_ring A = RDF /\ vec_ring b = RDF) /\
    (exists A b Aeq beq,
        polyhedron_to_Hrep (VPolyhedron P) true
        = Ret (VList [VMatrix A; VVector b; VMatrix Aeq; VVector beq]) /\
        mat_ring A = RDF /\ vec_ring b = RDF /\
        mat_ring Aeq = RDF /\ vec_ring beq = RDF).
Proof.
  intros P. split.
  - eexists _, _. split; [apply polyhedron_to_Hrep_rows|].
    split; reflexivity.
  - unfold polyhedron_to_Hrep. cbn [negb m_Hrep_generator bind].
    match goal with |- context [fold_left ?f ?l ?st] =>
      destruct (fold_left f l st) as [[[A b] Aeq] beq] end.
    eexists _, _, _, _. split; [reflexivity|].
    repeat split; reflexivity.
Qed.

(** ** Rows as linear functions *)

Lemma vdot_from_neg (a : list R) (x : point) :
  forall k, vdot_from k (vec_neg a) x = - vdot_from k a x.
Proof.
  induction a as [|ai a IH]; intros k; cbn [vec_neg map vdot_from].
  - lra.
  - unfold vec_neg in IH. rewrite IH. lra.
Qed.

Lemma vdot_neg (a : list R) (x : point) : vdot (vec_neg a) x = - vdot a x.
Proof. apply vdot_from_neg. Qed.

Lemma vdot_from_zero (n : nat) (x : point) :
  forall k, vdot_from k (zero_vector n) x = 0.
Proof.
  induction n as [|n IH]; intros k; cbn [zero_vector repeat vdot_from].
  - reflexivity.
  - unfold zero_vector in IH. rewrite IH. lra.
Qed.

(** The canonical direction [e_i] reads the coordinate [i]. *)
Lemma vdot_from_unit (x : point) :
  forall n i k, (i < n)%nat ->
    vdot_from k (set_item (zero_vector n) i 1) x = x (k + i)%nat.
Proof.
  induction n as [|n IH]; intros i k Hi; [lia|].
  destruct i as [|i]; cbn [zero_vector repeat set_item vdot_from].
  - fold (zero_vector n). rewrite vdot_from_zero, Nat.add_0_r. lra.
  - fold (zero_vector n). rewrite IH by lia.
    replace (S k + i)%nat with (k + S i)%nat by lia. lra.
Qed.

Lemma vdot_unit (x : point) (n i : nat) :
  (i < n)%nat -> vdot (set_item (zero_vector n) i 1) x = x i.
Proof. intros Hi. unfold vdot. now rewrite vdot_from_unit. Qed.

Lemma dot_product_neg (a : list R) :
  dot_product (vec_neg a) (vec_neg a) = dot_product a a.
Proof.
  induction a as [|ai a IH]; [reflexivity|].
  cbn [vec_neg map dot_product]. unfold vec_neg in IH. rewrite IH. lra.
Qed.

Lemma dot_product_zero (n : nat) :
  dot_product (zero_vector n) (zero_vector n) = 0.
Proof.
  induction n as [|n IH]; [reflexivity|].
  cbn [zero_vector repeat dot_product]. unfold zero_vector in IH.
  rewrite IH. lra.
Qed.

Lemma dot_product_unit :
  forall n i, (i < n)%nat ->
    dot_product (set_item (zero_vector n) i 1) (set_item (zero_vector n) i 1)
    = 1.
Proof.
  induction n as [|n IH]; intros i Hi; [lia|].
  destruct i as [|i]; cbn [zero_vector repeat set_item dot_product].
  - fold (zero_vector n). rewrite dot_product_zero. lra.
  - fold (zero_vector n). rewrite IH by lia. lra.
Qed.

(** The linear function [sum_j row[j]*x[j]] over the columns of the row. *)
Lemma lin_eval_app (f g : linfun) (s : assignment) :
  lin_eval (f ++ g) s = lin_eval f s + lin_eval g s.
Proof.
  induction f as [|[c v] f IH]; cbn [app lin_eval]; [lra|].
  rewrite IH. lra.
Qed.

Lemma lin_eval_row_from (x : nat -> mipvar) (s : assignment) :
  forall (row pre : list R),
    lin_eval (map (fun j => (nth j (pre ++ row) 0, x j))
                  (seq (length pre) (length row))) s
    = vdot_from (length pre) row (fun j => s (x j)).
Proof.
  induction row as [|a row IH]; intros pre; [reflexivity|].
  cbn [length seq map lin_eval vdot_from].
  rewrite app_nth2, Nat.sub_diag by lia. cbn [nth].
  specialize (IH (pre ++ [a])).
  rewrite length_app, Nat.add_1_r, <- app_assoc in IH. cbn [length app] in IH.
  rewrite IH. reflexivity.
Qed.

Lemma lin_eval_row (x : nat -> mipvar) (s : assignment) (row : list R) :
  lin_eval (map (fun j => (nth j row 0, x j)) (range (length row))) s
  = vdot row (fun j => s (x j)).
Proof. exact (lin_eval_row_from x s row []). Qed.

Lemma lin_eval_zero_terms (x : nat -> mipvar) (s : assignment) (l : list nat) :
  lin_eval (map (fun i => (0, x i)) l) s = 0.
Proof.
  induction l as [|i l IH]; cbn [map lin_eval]; [reflexivity|].
  rewrite IH. lra.
Qed.

(** The objective of [chebyshev_center] is the margin [r[0]]. *)
Lemma cheby_objective_eval (m : nat) (s : assignment) :
  lin_eval (cheby_objective m) s = s (cheby_r 0%nat).
Proof.
  unfold cheby_objective. rewrite lin_eval_app, lin_eval_zero_terms.
  cbn [lin_eval]. lra.
Qed.

(** ** The half-space model that [BoxInfty] builds *)

Lemma set_item_app {A : Type} (pre post : list A) (a x : A) :
  set_item (pre ++ a :: post) (length pre) x = pre ++ x :: post.
Proof.
  induction pre as [|p pre IH]; [reflexivity|].
  cbn [app length set_item]. now rewrite IH.
Qed.

Lemma set_item_length {A : Type} (l : list A) :
  forall i x, length (set_item l i x) = length l.
Proof.
  induction l as [|a l IH]; intros i x; [reflexivity|].
  destruct i; cbn [set_item length]; [reflexivity|]. now rewrite IH.
Qed.

(** A loop that fills two rows per index, starting at the row [count],
    leaves the rows of all its indices in place of the zero rows. *)
Lemma box_loop (rowsof : nat -> list (list R * R))
    (body : list (list R) * list R * nat -> nat -> list (list R) * list R * nat) :
  (forall i, length (rowsof i) = 2%nat) ->
  (forall A b count i,
      body (A, b, count) i
      = (set_item (set_item A count (fst (nth 0 (rowsof i) ([], 0))))
                  (S count) (fst (nth 1 (rowsof i) ([], 0))),
         set_item (set_item b count (snd (nth 0 (rowsof i) ([], 0))))
                  (S count) (snd (nth 1 (rowsof i) ([], 0))),
         S (S count))) ->
  forall (l : list nat) (doneA restA : list (list R)) (doneb restb : list R),
    length doneA = length doneb ->
    length restA = (2 * length l)%nat ->
    length restb = (2 * length l)%nat ->
    fold_left body l (doneA ++ restA, doneb ++ restb, length doneA)
    = (doneA ++ map fst (flat_map rowsof l),
       doneb ++ map snd (flat_map rowsof l),
       (length doneA + 2 * length l)%nat).
Proof.
  intros Hrows Hbody.
  induction l as [|i l IH]; intros doneA restA doneb restb Hd HA Hb.
  - destruct restA; [|discriminate]. destruct restb; [|discriminate].
    cbn [fold_left flat_map map length]. now rewrite Nat.add_0_r.
  - destruct restA as [|z1 [|z2 restA]];
      [cbn [length] in HA; lia | cbn [length] in HA; lia |].
    destruct restb as [|y1 [|y2 restb]];
      [cbn [length] in Hb; lia | cbn [length] in Hb; lia |].
    cbn [length] in HA, Hb.
    cbn [fold_left flat_map]. rewrite Hbody.
    specialize (Hrows i).
    destruct (rowsof i) as [|[u bu] [|[w bw] [|? ?]]]; try discriminate.
    cbn [nth fst snd].
    rewrite set_item_app. rewrite Hd at 2. rewrite set_item_app.
    replace (doneA ++ u :: z2 :: restA) with ((doneA ++ [u]) ++ z2 :: restA)
      by (rewrite <- app_assoc; reflexivity).
    replace (doneb ++ bu :: y2 :: restb) with ((doneb ++ [bu]) ++ y2 :: restb)
      by (rewrite <- app_assoc; reflexivity).
    replace (S (length doneA)) with (length (doneA ++ [u]))
      by (rewrite length_app; cbn [length]; lia).
    rewrite set_item_app.
    replace (length (doneA ++ [u])) with (length (doneb ++ [bu]))
      by (rewrite !length_app; cbn [length]; lia).
    rewrite set_item_app.
    replace (S (length (doneb ++ [bu]))) with (length ((doneA ++ [u]) ++ [w]))
      by (rewrite !length_app; cbn [length]; lia).
    replace ((doneA ++ [u]) ++ w :: restA) with (((doneA ++ [u]) ++ [w]) ++ restA)
      by (rewrite <- !app_assoc; reflexivity).
    replace ((doneb ++ [bu]) ++ bw :: restb) with (((doneb ++ [bu]) ++ [bw]) ++ restb)
      by (rewrite <- !app_assoc; reflexivity).
    rewrite IH by (rewrite ?length_app; cbn [length]; lia).
    cbn [app map fst snd]. rewrite <- !app_assoc. cbn [app].
    rewrite !length_app. cbn [length]. f_equal. lia.
Qed.

Lemma cast_list_nums (K : ring) (c : list R) :
  cast_list K (map VNum c) = Ret c.
Proof.
  induction c as [|x c IH]; [reflexivity|].
  cbn [map cast_list]. rewrite IH. reflexivity.
Qed.

(** [BoxInfty(center=c, radius=r, base_ring=K, return_HSpaceRep=flag)]:
    the model [(box_A, box_b)] is built, then returned or handed to
    [polyhedron_from_Hrep]. *)
Lemma BoxInfty_center_radius_any (K : ring) (c : list R) (r : R)
    (return_HSpaceRep : bool) :
  BoxInfty VNone (VList (map VNum c)) (VNum r) K return_HSpaceRep
  = if negb return_HSpaceRep
    then polyhedron_from_Hrep (VMatrix (box_A K c r)) (VVector (box_b K c r)) K
    else Ret (VList [VMatrix (box_A K c r); VVector (box_b K c r)]).
Proof.
  unfold BoxInfty.
  cbn [is_None negb andb cast_seq cast_num].
  rewrite cast_list_nums. cbn [bind].
  assert (HA : length (repeat (zero_vector (length c)) (2 * length c))
               = (2 * length (range (length c)))%nat)
    by (unfold range; now rewrite repeat_length, length_seq).
  assert (Hb : length (zero_vector (2 * length c))
               = (2 * length (range (length c)))%nat)
    by (unfold range, zero_vector; now rewrite repeat_length, length_seq).
  match goal with |- context [fold_left ?f ?l ?st] =>
    pose proof (box_loop
      (fun i => axis_rows (length c) i (nth i c 0 - coerce K r)
                          (nth i c 0 + coerce K r)) f
      (fun _ => eq_refl) (fun _ _ _ _ => eq_refl)
      (range (length c)) [] (repeat (zero_vector (length c)) (2 * length c))
      [] (zero_vector (2 * length c)) eq_refl HA Hb) as Hloop
  end.
  cbn [app length] in Hloop. fold_left_with Hloop. reflexivity.
Qed.

Lemma BoxInfty_center_radius (K : ring) (c : list R) (r : R) :
  BoxInfty VNone (VList (map VNum c)) (VNum r) K true
  = Ret (VList [VMatrix (box_A K c r); VVector (box_b K c r)]).
Proof. exact (BoxInfty_center_radius_any K c r true). Qed.

Lemma BoxInfty_center_radius_object (K : ring) (c : list R) (r : R) :
  BoxInfty VNone (VList (map VNum c)) (VNum r) K false
  = polyhedron_from_Hrep (VMatrix (box_A K c r)) (VVector (box_b K c r)) K.
Proof. exact (BoxInfty_center_radius_any K c r false). Qed.

(** ** The Chebyshev LP of a box *)

Lemma combine_fst_snd {A B : Type} (l : list (A * B)) :
  combine (map fst l) (map snd l) = l.
Proof.
  induction l as [|[a b] l IH]; [reflexivity|].
  cbn [map combine fst snd]. now rewrite IH.
Qed.

(** A row constraint reads [row . x + norm(row) * r[0]]. *)
Lemma cheby_row_eval (m : nat) (row : list R) (bi : R) (s : assignment) :
  length row = m ->
  lin_eval (fst (cheby_row_constraint m (row, bi))) s
  = vdot row (fun j => s (cheby_x j))
    + sqrt (dot_product row row) * s (cheby_r 0%nat).
Proof.
  intros <-. unfold cheby_row_constraint. cbn [fst].
  rewrite lin_eval_app, lin_eval_row. cbn [lin_eval]. lra.
Qed.

(** The constraints of [chebyshev_center], read on the rows of [(A, b)]. *)
Lemma cheby_lp_feasible (A : matrix) (b : vector) (s : assignment) :
  Forall (fun row => length row = mat_ncols A) (mat_rows A) ->
  (milp_feasible (cheby_lp A b) s <->
   Forall (fun rb : list R * R =>
             vdot (fst rb) (fun j => s (cheby_x j))
             + sqrt (dot_product (fst rb) (fst rb)) * s (cheby_r 0%nat)
             <= snd rb)
          (combine (mat_rows A) (vec_entries b))).
Proof.
  intros Hwf. unfold milp_feasible, cheby_lp. cbn [milp_constraints].
  rewrite Forall_map.
  assert (Hin : Forall (fun rb : list R * R => length (fst rb) = mat_ncols A)
                       (combine (mat_rows A) (vec_entries b))).
  { rewrite Forall_forall in *. intros [row bi] Hrb.
    apply in_combine_l in Hrb. cbn [fst]. now apply Hwf. }
  induction (combine (mat_rows A) (vec_entries b)) as [|[row bi] l IH].
  - split; constructor.
  - inversion Hin as [|? ? Hrow Hl]; subst. cbn [fst] in Hrow.
    specialize (IH Hl).
    split; intros H; inversion H as [|? ? H1 H2]; subst; constructor;
      try (now apply IH).
    + rewrite cheby_row_eval in H1 by exact Hrow. exact H1.
    + rewrite cheby_row_eval by exact Hrow. exact H1.
Qed.

Lemma axis_rows_feasible (n i : nat) (lo hi : R) (s : assignment) :
  (i < n)%nat ->
  (Forall (fun c => lin_eval (fst c) s <= snd c)
          (map (cheby_row_constraint n) (axis_rows n i lo hi)) <->
   s (cheby_x i) + s (cheby_r 0%nat) <= hi /\
   - s (cheby_x i) + s (cheby_r 0%nat) <= - lo).
Proof.
  intros Hi. unfold axis_rows. cbn [map].
  assert (Hlen : length (set_item (zero_vector n) i 1) = n)
    by (rewrite set_item_length; apply repeat_length).
  assert (Hlen' : length (vec_neg (set_item (zero_vector n) i 1)) = n)
    by (unfold vec_neg; now rewrite length_map).
  assert (E1 : lin_eval (fst (cheby_row_constraint n
                 (set_item (zero_vector n) i 1, hi))) s
               = s (cheby_x i) + s (cheby_r 0%nat)).
  { rewrite cheby_row_eval by exact Hlen.
    rewrite vdot_unit, dot_product_unit, sqrt_1 by exact Hi. lra. }
  assert (E2 : lin_eval (fst (cheby_row_constraint n
                 (vec_neg (set_item (zero_vector n) i 1), - lo))) s
               = - s (cheby_x i) + s (cheby_r 0%nat)).
  { rewrite cheby_row_eval by exact Hlen'.
    rewrite vdot_neg, dot_product_neg, vdot_unit, dot_product_unit, sqrt_1
      by exact Hi. lra. }
  split.
  - intros H. inversion H as [|? ? H1 H']; subst.
    inversion H' as [|? ? H2 _]; subst.
    rewrite E1 in H1. rewrite E2 in H2. cbn [snd] in H1, H2. now split.
  - intros [H1 H2]. constructor; [|constructor; [|constructor]].
    + rewrite E1. exact H1.
    + rewrite E2. exact H2.
Qed.

(** Feasibility for the LP of a box: the margin fits on both sides of every
    axis. *)
Lemma box_lp_feasible (K : ring) (c : list R) (r : R) (s : assignment) :
  milp_feasible (cheby_lp (box_A K c r) (box_b K c r)) s <->
  forall i, (i < length c)%nat ->
    s (cheby_x i) + s (cheby_r 0%nat) <= nth i c 0 + r /\
    - s (cheby_x i) + s (cheby_r 0%nat) <= - (nth i c 0 - r).
Proof.
  unfold milp_feasible, cheby_lp, box_A, box_b.
  cbn [milp_constraints mat_rows vec_entries mat_ncols].
  rewrite combine_fst_snd. unfold box_rows.
  rewrite flat_map_concat_map, concat_map, map_map, <- flat_map_concat_map.
  rewrite Forall_flat_map, Forall_forall.
  split.
  - intros H i Hi. apply (axis_rows_feasible (length c) i); [exact Hi|].
    apply H. unfold range. apply in_seq. lia.
  - intros H i Hi. unfold range in Hi. apply in_seq in Hi.
    apply axis_rows_feasible; [lia|]. apply H. lia.
Qed.

Lemma cheby_point_x (xs : list R) (rho : R) (i : nat) :
  cheby_point xs rho (cheby_x i) = nth i xs 0.
Proof. reflexivity. Qed.

Lemma cheby_point_r (xs : list R) (rho : R) :
  cheby_point xs rho (cheby_r 0%nat) = rho.
Proof. reflexivity. Qed.

(** The center with the radius as margin is an optimum of the LP. *)
Lemma box_lp_optimum (K : ring) (c : list R) (r : R) :
  c <> [] ->
  solver_answer_ok (cheby_lp (box_A K c r) (box_b K c r))
                   (Optimal r (cheby_point c r)).
Proof.
  intros Hc. cbn [solver_answer_ok]. repeat split.
  - apply box_lp_feasible. intros i Hi.
    rewrite cheby_point_x, cheby_point_r. lra.
  - unfold cheby_lp. cbn [milp_objective].
    now rewrite cheby_objective_eval, cheby_point_r.
  - intros s' Hs'. unfold cheby_lp. cbn [milp_objective].
    rewrite cheby_objective_eval.
    destruct c as [|c0 c]; [contradiction|].
    pose proof (proj1 (box_lp_feasible _ _ _ _) Hs') as Hbox.
    destruct (Hbox 0%nat) as [H1 H2]; [cbn [length]; lia|].
    cbn [nth] in H1, H2. lra.
Qed.

(** At an optimum of the LP of a box the point is the center. *)
Lemma box_lp_optimal_point (K : ring) (c : list R) (r oval : R)
    (s : assignment) :
  c <> [] ->
  solver_answer_ok (cheby_lp (box_A K c r) (box_b K c r)) (Optimal oval s) ->
  map (fun i => s (cheby_x i)) (range (length c)) = c.
Proof.
  intros Hc (Hfeas & Hval & Hopt).
  pose proof (box_lp_optimum K c r Hc) as (Hfeas0 & Hval0 & _).
  apply Hopt in Hfeas0. rewrite Hval0 in Hfeas0.
  unfold cheby_lp in Hval. cbn [milp_objective] in Hval.
  rewrite cheby_objective_eval in Hval.
  rewrite box_lp_feasible in Hfeas.
  apply nth_ext with (d := 0) (d' := 0).
  - unfold range. now rewrite length_map, length_seq.
  - intros i Hi. unfold range in *. rewrite length_map, length_seq in Hi.
    rewrite (nth_indep _ 0 (s (cheby_x 0%nat)))
      by (now rewrite length_map, length_seq).
    rewrite (map_nth (fun i => s (cheby_x i))).
    rewrite seq_nth by exact Hi. cbn [Nat.add].
    destruct (Hfeas i Hi) as [H1 H2]. lra.
Qed.

Lemma box_A_wf (K : ring) (c : list R) (r : R) :
  Forall (fun row => length row = mat_ncols (box_A K c r))
         (mat_rows (box_A K c r)).
Proof.
  unfold box_A, box_rows. cbn [mat_ncols mat_rows].
  generalize (length c) at 1 2 as n. intros n.
  rewrite Forall_map, Forall_flat_map, Forall_forall. intros i _.
  unfold axis_rows. repeat constructor; cbn [fst]; unfold vec_neg;
    rewrite ?length_map, set_item_length; apply repeat_length.
Qed.

Lemma chebyshev_center_of_BoxInfty_lp (c : list R) (r : R) (K : ring) :
  chebyshev_center_of_BoxInfty c r K
  = (sol <- mip_solve (cheby_lp (box_A K c r) (box_b K c r)) ;;
     Ret (VVector (mk_vector K
            (map (fun i => snd sol (cheby_x i)) (range (length c)))))).
Proof.
  unfold chebyshev_center_of_BoxInfty.
  rewrite BoxInfty_center_radius. cbn [bind unpack2 fst snd].
  rewrite chebyshev_center_Ab.
  - reflexivity.
  - unfold mat_nrows, box_A, box_b. cbn [mat_rows vec_entries].
    now rewrite !length_map.
Qed.

(** ** The round trip through the polyhedron object *)

Lemma from_Hrep_loop (K Kb : ring) (nc : nat) :
  forall (rows pre : list (list R)) (bs preb : list R) (ieqs : list (list R)),
    length pre = length preb ->
    length ieqs = length pre ->
    length rows = length bs ->
    for_each (seq (length pre) (length rows)) (fun ieqs_list i =>
        row <- m_row (VMatrix (mk_matrix K nc (pre ++ rows))) i ;;
        let ieqs_list := ieqs_list ++ [vec_neg row] in
        bi <- num_item (VVector (mk_vector Kb (preb ++ bs))) i ;;
        Ret (set_item ieqs_list i (bi :: nth i ieqs_list []))) ieqs
    = Ret (ieqs ++ map (fun rb : list R * R => snd rb :: vec_neg (fst rb))
                       (combine rows bs)).
Proof.
  induction rows as [|v rows IH]; intros pre bs preb ieqs Hpre Hieqs Hlen.
  - simpl. now rewrite app_nil_r.
  - destruct bs as [|bi bs]; [discriminate|].
    simpl in Hlen. injection Hlen as Hlen.
    cbn [length seq for_each m_row mat_rows num_item vec_entries].
    rewrite nth_error_app2, Nat.sub_diag by lia.
    assert (Hb : nth_error (preb ++ bi :: bs) (length pre) = Some bi)
      by (rewrite Hpre, nth_error_app2, Nat.sub_diag by lia; reflexivity).
    rewrite Hb. cbn [nth_error bind].
    rewrite <- Hieqs.
    rewrite app_nth2, Nat.sub_diag by lia. cbn [nth].
    rewrite set_item_app.
    specialize (IH (pre ++ [v]) bs (preb ++ [bi]) (ieqs ++ [bi :: vec_neg v])).
    rewrite !length_app, Nat.add_1_r in IH. cbn [length] in IH.
    rewrite <- !app_assoc in IH. cbn [app] in IH.
    rewrite Hieqs.
    etransitivity; [exact (IH ltac:(lia) ltac:(lia) Hlen)|].
    reflexivity.
Qed.

(** For the two supported rings the function hands the rows [ieqs_of A b]
    to the constructor and returns the object it gets. *)
Lemma polyhedron_from_Hrep_request (A : matrix) (b : vector) (K : ring) :
  K = QQ \/ K = RDF ->
  mat_nrows A = length (vec_entries b) ->
  polyhedron_from_Hrep (VMatrix A) (VVector b) K
  = NewPolyhedron
      (mk_request (ieqs_of A b) K (mat_ncols A)
                  (match K with RDF => "cdd" | _ => "ppl" end))
      (fun P => Ret (VPolyhedron P)).
Proof.
  intros HK Hlen. destruct A as [KA nc rows], b as [Kb bs].
  unfold mat_nrows in Hlen. cbn [mat_rows vec_entries] in Hlen.
  pose proof (from_Hrep_loop KA Kb nc rows [] bs [] [] eq_refl eq_refl Hlen)
    as Hloop.
  cbn [app length] in Hloop.
  unfold polyhedron_from_Hrep, ieqs_of.
  destruct HK as [-> | ->];
    cbn [ring_eqb bind m_ncols m_base_ring m_nrows mat_nrows mat_rows
         mat_ncols vec_entries];
    unfold mat_nrows, range; cbn [mat_rows];
    bind_head Hloop; reflexivity.
Qed.

Lemma vdot_from_nil_coeffs (a : list R) (x : point) :
  (forall j, nth j a 0 = 0) -> forall k, vdot_from k a x = 0.
Proof.
  induction a as [|ai a IH]; intros Hz k; [reflexivity|].
  cbn [vdot_from]. rewrite IH.
  - pose proof (Hz 0%nat) as H0. cbn [nth] in H0. rewrite H0. lra.
  - intros j. exact (Hz (S j)).
Qed.

(** Moving a point along one axis changes a row's value by the coefficient
    of that axis. *)
Lemma vdot_from_bump (x : point) (j : nat) (t : R) :
  forall (a : list R) (k : nat),
    vdot_from k a (bump x j t)
    = vdot_from k a x + (if (k <=? j)%nat then nth (j - k) a 0 else 0) * t.
Proof.
  induction a as [|ai a IH]; intros k.
  - cbn [vdot_from]. destruct (k <=? j)%nat; [|lra].
    destruct (j - k)%nat; cbn [nth]; lra.
  - cbn [vdot_from]. rewrite IH. unfold bump at 1.
    destruct (Nat.eqb_spec k j) as [->|Hkj].
    + rewrite Nat.leb_refl, Nat.sub_diag. cbn [nth].
      destruct (Nat.leb_spec (S j) j); [lia|]. lra.
    + destruct (Nat.leb_spec k j) as [Hle|Hgt].
      * destruct (Nat.leb_spec (S k) j); [|lia].
        replace (j - k)%nat with (S (j - S k)) by lia. cbn [nth]. lra.
      * destruct (Nat.leb_spec (S k) j); [lia|]. lra.
Qed.

Lemma vdot_bump (x : point) (j : nat) (t : R) (a : list R) :
  vdot a (bump x j t) = vdot a x + nth j a 0 * t.
Proof.
  unfold vdot. rewrite vdot_from_bump. cbn [Nat.leb].
  now rewrite Nat.sub_0_r.
Qed.

Lemma bump_near (x : point) (j : nat) (eps : R) :
  0 < eps -> forall i, Rabs (bump x j (eps / 2) i - x i) < eps.
Proof.
  intros Heps i. unfold bump. destruct (i =? j)%nat.
  - replace (x i + eps / 2 - x i) with (eps / 2) by lra.
    rewrite Rabs_pos_eq; lra.
  - replace (x i - x i) with 0 by lra. rewrite Rabs_R0. lra.
Qed.

(** An equation that holds on a small box around a point has no content:
    its coefficients and its offset are zero. *)
Lemma equation_on_box_trivial (off : R) (a : list R) (p : point) (eps : R) :
  0 < eps ->
  (forall y, (forall j, Rabs (y j - p j) < eps) -> off + vdot a y = 0) ->
  (forall x, vdot a x = 0) /\ off = 0.
Proof.
  intros Heps H.
  assert (Hp : off + vdot a p = 0).
  { apply H. intros j. replace (p j - p j) with 0 by lra.
    rewrite Rabs_R0. exact Heps. }
  assert (Hz : forall j, nth j a 0 = 0).
  { intros j. pose proof (H (bump p j (eps / 2)) (bump_near p j eps Heps)) as Hb.
    rewrite vdot_bump in Hb. nra. }
  assert (Hv : forall x, vdot a x = 0)
    by (intros x; unfold vdot; now apply vdot_from_nil_coeffs).
  split; [exact Hv|]. rewrite Hv in Hp. lra.
Qed.

Lemma Forall_equiv {A : Type} (P Q : A -> Prop) (l : list A) :
  (forall a, In a l -> (P a <-> Q a)) -> (Forall P l <-> Forall Q l).
Proof.
  intros H. rewrite !Forall_forall.
  split; intros HF a Ha; apply (H a Ha), HF, Ha.
Qed.

(** The rows handed to the constructor describe [{x : A x <= b}]. *)
Lemma ieqs_of_region (A : matrix) (b : vector) (x : point) :
  ieqs_contain (ieqs_of A b) x <-> Hrep_feasible A b x.
Proof.
  unfold ieqs_contain, ieqs_of, Hrep_feasible. rewrite Forall_map.
  apply Forall_equiv. intros [row bi] _.
  unfold ieq_holds. cbn [hd tl fst snd]. rewrite vdot_neg. lra.
Qed.

(** On a full-dimensional polyhedron the rows of the converter describe the
    region of the object: an inequality is moved to the other side, and an
    equation can only be the empty one. *)
Lemma Hrep_rows_region (P : polyhedron) :
  full_dimensional (poly_contains P) ->
  forall x,
    Forall (fun rb : list R * R => vdot (fst rb) x <= snd rb) (Hrep_rows P)
    <-> poly_contains P x.
Proof.
  intros (p & eps & Heps & Hbox) x.
  unfold Hrep_rows, poly_contains. rewrite Forall_flat_map.
  apply Forall_equiv. intros h Hh.
  unfold Hrep_rows_of, constraint_holds.
  destruct (is_equation h) eqn:Eh.
  - destruct (equation_on_box_trivial (h_offset h) (h_coeffs h) p eps Heps)
      as [Hv Hoff].
    { intros y Hy. specialize (Hbox y Hy). unfold poly_contains in Hbox.
      rewrite Forall_forall in Hbox. specialize (Hbox h Hh).
      unfold constraint_holds in Hbox. now rewrite Eh in Hbox. }
    split.
    + intros _. rewrite Hv, Hoff. lra.
    + intros _. constructor; [|constructor; [|constructor]]; cbn [fst snd];
        rewrite ?vdot_neg, Hv, Hoff; lra.
  - split.
    + intros H. inversion H as [|? ? H1 _]; subst. cbn [fst snd] in H1.
      rewrite vdot_neg in H1. lra.
    + intros H. constructor; [|constructor]. cbn [fst snd].
      rewrite vdot_neg. lra.
Qed.

Lemma Hrep_feasible_of_rows (K Kb : ring) (rows : list (list R * R))
    (x : point) :
  Hrep_feasible (matrix_of K (map fst rows)) (vector_of Kb (map snd rows)) x
  <-> Forall (fun rb : list R * R => vdot (fst rb) x <= snd rb) rows.
Proof.
  unfold Hrep_feasible, matrix_of, vector_of. cbn [mat_rows vec_entries].
  now rewrite map_map_coerce, map_coerce, combine_fst_snd.
Qed.

Lemma plain_engine_ok (req : ieqs_request) :
  Forall (fun row => length row = S (req_ambient_dim req)) (req_ieqs req) ->
  engine_answer_ok req (plain_engine req).
Proof.
  intros Hshape. split.
  - intros x. unfold poly_contains, plain_engine, ieqs_contain.
    cbn [Hrepresentation]. rewrite Forall_map. apply Forall_equiv.
    intros row _. reflexivity.
  - unfold plain_engine. cbn [Hrepresentation]. rewrite Forall_map.
    eapply Forall_impl; [|exact Hshape].
    intros [|a row] H; cbn [h_coeffs tl length] in *; [discriminate|lia].
Qed.

(** The rows handed to the constructor have the offset and one coefficient
    per column. *)
Lemma ieqs_of_shape (A : matrix) (b : vector) :
  Forall (fun row => length row = mat_ncols A) (mat_rows A) ->
  Forall (fun row => length row = S (mat_ncols A)) (ieqs_of A b).
Proof.
  intros Hwf. unfold ieqs_of. rewrite Forall_map.
  rewrite Forall_forall in *. intros [row bi] Hin.
  apply in_combine_l in Hin. cbn [fst snd length]. unfold vec_neg.
  rewrite length_map. f_equal. now apply Hwf.
Qed.


Lemma segment_full_dimensional :
  full_dimensional (Hrep_feasible segment_A segment_b).
Proof.
  exists (fun _ => 0), 1. split; [lra|].
  intros y Hy. specialize (Hy 0%nat). apply Rabs_def2 in Hy.
  unfold Hrep_feasible, segment_A, segment_b. cbn [mat_rows vec_entries combine].
  constructor; [|constructor; [|constructor]]; cbn [fst snd];
    unfold vdot; cbn [vdot_from]; lra.
Qed.


(** ** The Chebyshev LP of a model with an empty region *)

Lemma vdot_from_origin (a : list R) :
  forall k, vdot_from k a (fun _ => 0) = 0.
Proof.
  induction a as [|ai a IH]; intros k; cbn [vdot_from]; [reflexivity|].
  rewrite IH. lra.
Qed.

(** With rows of positive norm, a margin that is negative enough fits every
    row at the origin. *)
Lemma margin_fits_at_origin (l : list (list R * R)) :
  Forall (fun rb : list R * R => 0 < sqrt (dot_product (fst rb) (fst rb))) l ->
  exists rho0, forall rho, rho <= rho0 ->
    Forall (fun rb : list R * R =>
              vdot (fst rb) (fun _ => 0)
              + sqrt (dot_product (fst rb) (fst rb)) * rho <= snd rb) l.
Proof.
  induction 1 as [|[row bi] l Hpos _ IH].
  - exists 0. intros rho _. constructor.
  - destruct IH as [rho1 IH]. cbn [fst] in Hpos.
    exists (Rmin rho1 (bi / sqrt (dot_product row row))).
    intros rho Hrho. constructor.
    + cbn [fst snd]. unfold vdot. rewrite vdot_from_origin.
      pose proof (Rmin_r rho1 (bi / sqrt (dot_product row row))) as Hr.
      assert (Hle : rho <= bi / sqrt (dot_product row row)) by lra.
      apply (Rmult_le_compat_l (sqrt (dot_product row row))) in Hle; [|lra].
      replace (sqrt (dot_product row row) * (bi / sqrt (dot_product row row)))
        with bi in Hle by (field; lra).
      lra.
    + apply IH. pose proof (Rmin_l rho1 (bi / sqrt (dot_product row row))). lra.
Qed.

Lemma vdot_from_cheby_origin (rho : R) (row : list R) :
  forall k, vdot_from k row (fun j => cheby_point [] rho (cheby_x j)) = 0.
Proof.
  induction row as [|a row IH]; intros k; cbn [vdot_from]; [reflexivity|].
  rewrite IH, cheby_point_x. destruct k; cbn [nth]; lra.
Qed.

Lemma cheby_lp_has_point (A : matrix) (b : vector) :
  Forall (fun row => length row = mat_ncols A) (mat_rows A) ->
  Forall (fun row => 0 < sqrt (dot_product row row)) (mat_rows A) ->
  exists s, milp_feasible (cheby_lp A b) s.
Proof.
  intros Hwf Hpos.
  destruct (margin_fits_at_origin (combine (mat_rows A) (vec_entries b)))
    as [rho0 Hfit].
  { rewrite Forall_forall in *. intros [row bi] Hin.
    apply in_combine_l in Hin. cbn [fst]. now apply Hpos. }
  exists (cheby_point [] rho0).
  apply cheby_lp_feasible; [exact Hwf|].
  specialize (Hfit rho0 (Rle_refl rho0)).
  eapply Forall_impl; [|exact Hfit].
  intros [row bi] H. cbn [fst snd] in *.
  rewrite cheby_point_r. unfold vdot in *.
  rewrite vdot_from_origin in H. now rewrite vdot_from_cheby_origin.
Qed.

(** A feasible point of the LP with a margin that is not negative lies in
    the region of the model. *)
Lemma cheby_lp_margin_inside (A : matrix) (b : vector) (s : assignment) :
  Forall (fun row => length row = mat_ncols A) (mat_rows A) ->
  milp_feasible (cheby_lp A b) s ->
  0 <= s (cheby_r 0%nat) ->
  Hrep_feasible A b (fun j => s (cheby_x j)).
Proof.
  intros Hwf Hs Hrho. apply cheby_lp_feasible in Hs; [|exact Hwf].
  unfold Hrep_feasible. eapply Forall_impl; [|exact Hs].
  intros [row bi] H. cbn [fst snd] in *.
  pose proof (sqrt_pos (dot_product row row)) as Hn.
  pose proof (Rmult_le_pos _ _ Hn Hrho). lra.
Qed.

Lemma infeasible_model_empty :
  forall x, ~ Hrep_feasible infeasible_A infeasible_b x.
Proof.
  intros x H. unfold Hrep_feasible, infeasible_A, infeasible_b in H.
  cbn [mat_rows vec_entries combine] in H.
  inversion H as [|? ? H1 H']; subst. inversion H' as [|? ? H2 _]; subst.
  unfold vdot in H1, H2. cbn [fst snd vdot_from] in H1, H2. lra.
Qed.

Lemma infeasible_model_rows :
  Forall (fun row => length row = mat_ncols infeasible_A)
         (mat_rows infeasible_A) /\
  Forall (fun row => 0 < sqrt (dot_product row row)) (mat_rows infeasible_A).
Proof.
  unfold infeasible_A. cbn [mat_rows mat_ncols]. split.
  - constructor; [reflexivity|constructor; [reflexivity|constructor]].
  - constructor; [|constructor; [|constructor]];
      cbn [dot_product]; apply sqrt_lt_R0; lra.
Qed.

Lemma infeasible_model_feasible (s : assignment) :
  milp_feasible (cheby_lp infeasible_A infeasible_b) s <->
  s (cheby_x 0%nat) + s (cheby_r 0%nat) <= -1 /\
  - s (cheby_x 0%nat) + s (cheby_r 0%nat) <= -1.
Proof.
  rewrite cheby_lp_feasible by apply infeasible_model_rows.
  unfold infeasible_A, infeasible_b. cbn [mat_rows vec_entries combine].
  assert (E1 : sqrt (dot_product [1] [1]) = 1)
    by (cbn [dot_product]; replace (1 * 1 + 0) with 1 by lra; apply sqrt_1).
  assert (E2 : sqrt (dot_product [-1] [-1]) = 1)
    by (cbn [dot_product]; replace (-1 * -1 + 0) with 1 by lra; apply sqrt_1).
  split.
  - intros H. inversion H as [|? ? H1 H']; subst.
    inversion H' as [|? ? H2 _]; subst.
    cbn [fst snd] in H1, H2. rewrite E1 in H1. rewrite E2 in H2.
    unfold vdot in H1, H2. cbn [vdot_from] in H1, H2. lra.
  - intros [H1 H2]. constructor; [|constructor; [|constructor]];
      cbn [fst snd]; rewrite ?E1, ?E2; unfold vdot; cbn [vdot_from]; lra.
Qed.

(** On the infeasible model the LP of [chebyshev_center] has the optimum
    [x = 0] with the margin [-1]. *)
Lemma infeasible_model_optimum :
  solver_answer_ok (cheby_lp infeasible_A infeasible_b)
                   (Optimal (-1) (cheby_point [0] (-1))).
Proof.
  cbn [solver_answer_ok]. split; [|split].
  - apply infeasible_model_feasible.
    rewrite cheby_point_x, cheby_point_r. cbn [nth]. lra.
  - unfold cheby_lp. cbn [milp_objective].
    now rewrite cheby_objective_eval, cheby_point_r.
  - intros s' Hs'. unfold cheby_lp. cbn [milp_objective].
    rewrite cheby_objective_eval.
    apply infeasible_model_feasible in Hs'. lra.
Qed.

(** C7, as the code has it: on a half-space model with an empty region and
    rows of positive norm, the LP of [chebyshev_center] is feasible (the
    margin is a free variable and may be negative), so a solver that honours
    its contract reports an optimum with a negative margin, and the function
    returns the point of that optimum instead of signalling
    [InfeasibleError]. *)
Theorem chebyshev_center_empty_region :
  forall (A : matrix) (b : vector)
         (solve : MILP -> lp_status) (engine : ieqs_request -> polyhedron),
    Forall (fun row => length row = mat_ncols A) (mat_rows A) ->
    Forall (fun row => 0 < sqrt (dot_product row row)) (mat_rows A) ->
    mat_nrows A = length (vec_entries b) ->
    (forall x, ~ Hrep_feasible A b x) ->
    answers_ok solve engine (chebyshev_center VNone (VMatrix A) (VVector b)) ->
    exists (oval : R) (s : assignment),
      solve (cheby_lp A b) = Optimal oval s /\ oval < 0 /\
      run solve engine (chebyshev_center VNone (VMatrix A) (VVector b))
      = Ok (VVector (mk_vector (mat_ring A)
              (map (fun i => s (cheby_x i)) (range (mat_ncols A))))).
Proof.
  intros A b solve engine Hwf Hpos Hlen Hempty.
  rewrite (chebyshev_center_Ab A b Hlen).
  unfold mip_solve. cbn [bind answers_ok run].
  intros [Hok _].
  destruct (solve (cheby_lp A b)) as [oval s| |].
  - exists oval, s. split; [reflexivity|]. split; [|reflexivity].
    destruct Hok as (Hfeas & Hval & _).
    unfold cheby_lp in Hval. cbn [milp_objective] in Hval.
    rewrite cheby_objective_eval in Hval.
    destruct (Rlt_or_le oval 0) as [Hneg|Hnn]; [exact Hneg|].
    exfalso. apply (Hempty (fun j => s (cheby_x j))).
    apply cheby_lp_margin_inside; [exact Hwf|exact Hfeas|lra].
  - exfalso. destruct (cheby_lp_has_point A b Hwf Hpos) as [s Hs].
    exact (Hok s Hs).
  - exfalso. destruct Hok as [_ Hunb].
    destruct (Hunb 0) as (s & Hs & Hgt).
    unfold cheby_lp in Hgt. cbn [milp_objective] in Hgt.
    rewrite cheby_objective_eval in Hgt.
    apply (Hempty (fun j => s (cheby_x j))).
    apply cheby_lp_margin_inside; [exact Hwf|exact Hs|lra].
Qed.

Lemma chebyshev_center_empty_region_witness :
  exists (oval : R) (s : assignment),
    fixed_solver (Optimal (-1) (cheby_point [0] (-1)))
                 (cheby_lp infeasible_A infeasible_b) = Optimal oval s /\
    oval < 0 /\
    run (fixed_solver (Optimal (-1) (cheby_point [0] (-1)))) plain_engine
        (chebyshev_center VNone (VMatrix infeasible_A) (VVector infeasible_b))
    = Ok (VVector (mk_vector (mat_ring infeasible_A)
            (map (fun i => s (cheby_x i)) (range (mat_ncols infeasible_A))))).
Proof.
  apply (chebyshev_center_empty_region infeasible_A infeasible_b
           (fixed_solver (Optimal (-1) (cheby_point [0] (-1)))) plain_engine).
  - apply infeasible_model_rows.
  - apply infeasible_model_rows.
  - reflexivity.
  - exact infeasible_model_empty.
  - rewrite (chebyshev_center_Ab infeasible_A infeasible_b eq_refl).
    unfold mip_solve, fixed_solver. cbn [bind answers_ok].
    split; [exact infeasible_model_optimum|exact I].
Defined.

(** C7, as the claim has it, fails on its own example: the region of
    [A = [[1], [-1]]], [b = [-1, -1]] is empty, the answer [x = 0] with the
    margin [-1] honours the solver's contract, [Infeasible] does not, and
    with that answer [chebyshev_center] returns the point [(0)]. *)
Lemma chebyshev_center_infeasible_example :
  (forall x, ~ Hrep_feasible infeasible_A infeasible_b x) /\
  solver_answer_ok (cheby_lp infeasible_A infeasible_b)
                   (Optimal (-1) (cheby_point [0] (-1))) /\
  ~ solver_answer_ok (cheby_lp infeasible_A infeasible_b) Infeasible /\
  run (fixed_solver (Optimal (-1) (cheby_point [0] (-1)))) plain_engine
      (chebyshev_center VNone (VMatrix infeasible_A) (VVector infeasible_b))
  = Ok (VVector (mk_vector QQ [0])).
Proof.
  split; [exact infeasible_model_empty|].
  split; [exact infeasible_model_optimum|].
  split.
  - intros H. destruct infeasible_model_optimum as (Hfeas & _).
    exact (H _ Hfeas).
  - rewrite (chebyshev_center_Ab infeasible_A infeasible_b eq_refl).
    reflexivity.
Qed.

(** ** The support function and the radius of a half-space model *)

(** After the emptiness test, a model [[A, b]] leads to the LP [supp_lp]. *)
Lemma supp_fun_solve_Hrep (A : matrix) (b : vector) (d : list R)
    (verbose : bool) (solver : string) :
  mat_nrows A = length (vec_entries b) ->
  supp_fun_solve (VList [VMatrix A; VVector b]) d verbose false solver
  = (sol <- mip_solve (supp_lp A b d solver) ;; Ret (VNum (fst sol))).
Proof.
  intros Hlen. unfold supp_fun_solve.
  cbn [list_item nth_error bind matrix_constraint m_ncols].
  rewrite Hlen, Nat.eqb_refl. reflexivity.
Qed.

(** [supp_lp] is the problem of the support function: its objective is
    [d . x] and its feasible points are those of [{x : A x <= b}]. *)
Lemma supp_lp_reads (A : matrix) (b : vector) (d : list R) (solver : string)
    (s : assignment) :
  Forall (fun row => length row = mat_ncols A) (mat_rows A) ->
  lin_eval (milp_objective (supp_lp A b d solver)) s
    = vdot d (fun j => s (supp_x j)) /\
  (milp_feasible (supp_lp A b d solver) s <->
   Hrep_feasible A b (fun j => s (supp_x j))).
Proof.
  intros Hwf. split.
  - unfold supp_lp. cbn [milp_objective]. apply lin_eval_row.
  - unfold milp_feasible, supp_lp, Hrep_feasible. cbn [milp_constraints].
    rewrite Forall_map. apply Forall_equiv. intros [row bi] Hin.
    apply in_combine_l in Hin. rewrite Forall_forall in Hwf.
    cbn [fst snd]. rewrite <- (Hwf row Hin), lin_eval_row. reflexivity.
Qed.

(** Had the emptiness test let a model through, the function would return
    the maximum of [d . x] over [{x : A x <= b}]. *)
Lemma supp_fun_solve_optimal (A : matrix) (b : vector) (d : list R)
    (solver : string) (solve : MILP -> lp_status)
    (engine : ieqs_request -> polyhedron) (oval : R) (s : assignment) :
  Forall (fun row => length row = mat_ncols A) (mat_rows A) ->
  mat_nrows A = length (vec_entries b) ->
  solve (supp_lp A b d solver) = Optimal oval s ->
  solver_answer_ok (supp_lp A b d solver) (solve (supp_lp A b d solver)) ->
  run solve engine
      (supp_fun_solve (VList [VMatrix A; VVector b]) d false false solver)
    = Ok (VNum oval) /\
  Hrep_feasible A b (fun j => s (supp_x j)) /\
  vdot d (fun j => s (supp_x j)) = oval /\
  forall y, Hrep_feasible A b y -> vdot d y <= oval.
Proof.
  intros Hwf Hlen Hsol Hok. rewrite Hsol in Hok.
  destruct Hok as (Hfeas & Hval & Hopt).
  split.
  { rewrite supp_fun_solve_Hrep by exact Hlen.
    unfold mip_solve. cbn [bind run]. rewrite Hsol. reflexivity. }
  split; [now apply (supp_lp_reads A b d solver s Hwf)|].
  split.
  { now rewrite <- (proj1 (supp_lp_reads A b d solver s Hwf)). }
  intros y Hy.
  pose (s' := (fun v : mipvar => y (snd v)) : assignment).
  destruct (supp_lp_reads A b d solver s' Hwf) as [Hobj Hiff].
  assert (Hobj' : lin_eval (milp_objective (supp_lp A b d solver)) s'
                  = vdot d y) by exact Hobj.
  rewrite <- Hobj'. apply Hopt, Hiff. exact Hy.
Qed.

(** C1 (the code departs from it): the emptiness test [P.is_empty()] comes
    first and a list has no such method, so on every half-space model given
    as a list the function raises [AttributeError]: no LP is formulated and
    no optimal value returned, with any solver and engine. *)
Theorem supp_fun_polyhedron_Hrep_list :
  forall (A : matrix) (b : vector) (d : list R) (verbose return_xopt : bool)
         (solver : string),
    supp_fun_polyhedron (VList [VMatrix A; VVector b]) d verbose return_xopt
                        solver
      = Raise AttributeError /\
    forall solve engine,
      run solve engine
          (supp_fun_polyhedron (VList [VMatrix A; VVector b]) d verbose
                               return_xopt solver)
      = Err AttributeError.
Proof.
  intros. split; [reflexivity | intros; reflexivity].
Qed.

Lemma radius_Hrep_list (A : matrix) (b : vector) :
  mat_ncols A <> 0%nat ->
  radius (VList [VMatrix A; VVector b]) = Raise AttributeError.
Proof.
  intros Hn. unfold radius. cbn [list_item nth_error bind m_ncols].
  destruct (mat_ncols A) as [|n]; [contradiction|]. reflexivity.
Qed.

(** C5 (the code departs from it): [radius] calls [supp_fun_polyhedron] on
    the list [[A, b]], which raises [AttributeError]; on the box of the
    sides [[(0,2),(0,4)]] the function raises instead of returning [4].  On
    a polytope object it falls through and returns [None]. *)
Theorem radius_of_box_lengths :
  BoxInfty lengths_2_4 VNone VNone QQ true
    = Ret (VList [VMatrix (mk_matrix QQ 2 [[1; 0]; [-(1); -0]; [0; 1]; [-0; -(1)]]);
                  VVector (mk_vector QQ [2; -0; 4; -0])]) /\
  (box <- BoxInfty lengths_2_4 VNone VNone QQ true ;; radius box)
    = Raise AttributeError /\
  forall P : polyhedron, radius (VPolyhedron P) = Ret VNone.
Proof. split; [|split]; reflexivity. Qed.

(** ** The rows that [supp_fun_polyhedron] reads off a polytope object *)

Lemma extract_loop :
  forall (hs : list Hrep_obj) (doneA restA : list (list R))
         (doneb restb : list R),
    length doneA = length doneb ->
    length restA = length hs ->
    length restb = length hs ->
    fold_left (fun (st : list (list R) * list R * nat) (pigen : Hrep_obj) =>
        let '(A, b, i) := st in
        let pi_vec := Hvector pigen in
        let A := set_item A i (vec_neg (tl pi_vec)) in
        let b := set_item b i (hd 0 pi_vec) in
        (A, b, S i)) hs (doneA ++ restA, doneb ++ restb, length doneA)
    = (doneA ++ map (fun h => vec_neg (h_coeffs h)) hs,
       doneb ++ map h_offset hs,
       (length doneA + length hs)%nat).
Proof.
  induction hs as [|h hs IH]; intros doneA restA doneb restb Hd HA Hb.
  - destruct restA; [|discriminate]. destruct restb; [|discriminate].
    cbn [fold_left map length]. now rewrite Nat.add_0_r.
  - destruct restA as [|z restA]; [discriminate|].
    destruct restb as [|y restb]; [discriminate|].
    cbn [length] in HA, Hb. cbn [fold_left Hvector hd tl].
    rewrite set_item_app. rewrite Hd at 1. rewrite set_item_app.
    replace (doneA ++ vec_neg (h_coeffs h) :: restA)
      with ((doneA ++ [vec_neg (h_coeffs h)]) ++ restA)
      by (rewrite <- app_assoc; reflexivity).
    replace (doneb ++ h_offset h :: restb)
      with ((doneb ++ [h_offset h]) ++ restb)
      by (rewrite <- app_assoc; reflexivity).
    replace (S (length doneA))
      with (length (doneA ++ [vec_neg (h_coeffs h)]))
      by (rewrite length_app; cbn [length]; lia).
    rewrite IH by (rewrite ?length_app; cbn [length]; lia).
    cbn [map]. rewrite <- !app_assoc. cbn [app].
    rewrite length_app. cbn [length]. f_equal. lia.
Qed.

(** The inline extraction gives every constraint, equation or not, the
    single row [-coeff . x <= offset]. *)
Lemma supp_fun_extract_rows (P : polyhedron) (h0 : Hrep_obj)
    (hs : list Hrep_obj) :
  Hrepresentation P = h0 :: hs ->
  supp_fun_extract (VPolyhedron P)
  = Ret (VMatrix (mk_matrix (poly_base_ring P) (length (h_coeffs h0))
                    (map (fun h => vec_neg (h_coeffs h)) (h0 :: hs))),
         VVector (mk_vector (poly_base_ring P) (map h_offset (h0 :: hs)))).
Proof.
  intros E. unfold supp_fun_extract.
  cbn [m_base_ring m_Hrep_generator bind]. rewrite E. cbn [bind].
  match goal with |- context [fold_left ?f ?l (?A0, ?b0, 0%nat)] =>
    pose proof (extract_loop (h0 :: hs) [] A0 [] b0 eq_refl) as Hloop
  end.
  unfold zero_vector in Hloop at 2. rewrite !repeat_length in Hloop.
  specialize (Hloop eq_refl eq_refl). cbn [app length] in Hloop.
  fold_left_with Hloop.
  cbn [Hvector length]. now rewrite Nat.sub_succ, Nat.sub_0_r.
Qed.

(** On a polytope object without equations the inline rows are the rows of
    [polyhedron_to_Hrep]. *)
Lemma supp_fun_extract_no_equation (P : polyhedron) :
  Forall (fun h => is_equation h = false) (Hrepresentation P) ->
  map (fun h => (vec_neg (h_coeffs h), h_offset h)) (Hrepresentation P)
  = Hrep_rows P.
Proof.
  unfold Hrep_rows. induction 1 as [|h hs Hh _ IH]; [reflexivity|].
  cbn [map flat_map]. unfold Hrep_rows_of at 1. rewrite Hh, IH. reflexivity.
Qed.

(** ** Equations in the two extractions *)

(** The two rows that [polyhedron_to_Hrep] emits for an equation
    [offset + coeff . x = 0] bound [coeff . x] by the offset on both sides. *)
Lemma Hrep_rows_of_equation (h : Hrep_obj) (x : point) :
  is_equation h = true ->
  (Forall (fun rb : list R * R => vdot (fst rb) x <= snd rb) (Hrep_rows_of h)
   <-> - h_offset h <= vdot (h_coeffs h) x <= h_offset h).
Proof.
  intros Eh. unfold Hrep_rows_of. rewrite Eh. split.
  - intros H. inversion H as [|? ? H1 H']; subst.
    inversion H' as [|? ? H2 _]; subst. cbn [fst snd] in H1, H2.
    rewrite vdot_neg in H1. lra.
  - intros [H1 H2]. constructor; [|constructor; [|constructor]];
      cbn [fst snd]; rewrite ?vdot_neg; lra.
Qed.

(** C2 (the code departs from it): both rows of an equation get the offset
    as right-hand side, so for the polytope [{x : x = -1}], whose equation is
    [1 + x = 0], the system is [-x <= 1], [x <= 1]: the point [0] satisfies
    it and is not in the polytope. *)
Theorem polyhedron_to_Hrep_equation :
  polyhedron_to_Hrep (VPolyhedron point_minus_one) false
    = Ret (VList [VMatrix (mk_matrix RDF 1 [[-(1)]; [1]]);
                  VVector (mk_vector RDF [1; 1])]) /\
  Hrep_feasible (mk_matrix RDF 1 [[-(1)]; [1]]) (mk_vector RDF [1; 1])
                (fun _ => 0) /\
  ~ poly_contains point_minus_one (fun _ => 0).
Proof.
  split; [reflexivity|]. split.
  - unfold Hrep_feasible. cbn [mat_rows vec_entries combine].
    constructor; [|constructor; [|constructor]];
      cbn [fst snd]; unfold vdot; cbn [vdot_from]; lra.
  - intros H. unfold poly_contains, point_minus_one in H.
    cbn [Hrepresentation] in H. inversion H as [|? ? H1 _]; subst.
    unfold constraint_holds, vdot in H1.
    cbn [is_equation h_offset h_coeffs vdot_from] in H1. lra.
Qed.

(** C6 (the code departs from it): the rows that [supp_fun_polyhedron]
    reads off the polytope [{x : x = -1}] are the single row [-x <= 1],
    those of [polyhedron_to_Hrep] are [-x <= 1], [x <= 1]; the point [2]
    satisfies the first system and not the second. *)
Theorem supp_fun_extract_equation :
  supp_fun_extract (VPolyhedron point_minus_one)
    = Ret (VMatrix (mk_matrix QQ 1 [[-(1)]]), VVector (mk_vector QQ [1])) /\
  polyhedron_to_Hrep (VPolyhedron point_minus_one) false
    = Ret (VList [VMatrix (mk_matrix RDF 1 [[-(1)]; [1]]);
                  VVector (mk_vector RDF [1; 1])]) /\
  Hrep_feasible (mk_matrix QQ 1 [[-(1)]]) (mk_vector QQ [1]) (fun _ => 2) /\
  ~ Hrep_feasible (mk_matrix RDF 1 [[-(1)]; [1]]) (mk_vector RDF [1; 1])
                  (fun _ => 2).
Proof.
  split; [reflexivity|]. split; [reflexivity|]. split.
  - unfold Hrep_feasible. cbn [mat_rows vec_entries combine].
    constructor; [|constructor].
    cbn [fst snd]; unfold vdot; cbn [vdot_from]; lra.
  - intros H. unfold Hrep_feasible in H.
    cbn [mat_rows vec_entries combine] in H.
    inversion H as [|? ? _ H']; subst. inversion H' as [|? ? H2 _]; subst.
    unfold vdot in H2. cbn [fst snd vdot_from] in H2. lra.
Qed.

(** ** The Chebyshev center of the polytope object of a box *)

(** The half-space model of a box describes the box. *)
Lemma box_region (K : ring) (c : list R) (r : R) (x : point) :
  Hrep_feasible (box_A K c r) (box_b K c r) x <-> in_box c r x.
Proof.
  unfold Hrep_feasible, box_A, box_b, in_box. cbn [mat_rows vec_entries].
  rewrite combine_fst_snd. unfold box_rows.
  rewrite Forall_flat_map, Forall_forall.
  assert (Haxis : forall i, (i < length c)%nat ->
            (Forall (fun rb : list R * R => vdot (fst rb) x <= snd rb)
                    (axis_rows (length c) i (nth i c 0 - r) (nth i c 0 + r))
             <-> nth i c 0 - r <= x i <= nth i c 0 + r)).
  { intros i Hi. unfold axis_rows. split.
    - intros H. inversion H as [|? ? H1 H']; subst.
      inversion H' as [|? ? H2 _]; subst. cbn [fst snd] in H1, H2.
      rewrite vdot_neg in H2. rewrite vdot_unit in H1, H2 by exact Hi. lra.
    - intros [H1 H2]. constructor; [|constructor; [|constructor]];
        cbn [fst snd]; rewrite ?vdot_neg, vdot_unit by exact Hi; lra. }
  split.
  - intros H i Hi. apply Haxis; [exact Hi|]. apply H. apply in_seq. lia.
  - intros H i Hi. apply in_seq in Hi. apply Haxis; [lia|]. apply H. lia.
Qed.

Lemma box_full_dimensional (K : ring) (c : list R) (r : R) :
  0 < r -> full_dimensional (Hrep_feasible (box_A K c r) (box_b K c r)).
Proof.
  intros Hr. exists (point_of c), r. split; [exact Hr|].
  intros y Hy. apply box_region. intros i _.
  specialize (Hy i). apply Rabs_def2 in Hy. unfold point_of in Hy. lra.
Qed.

Lemma dot_product_nonneg (a : list R) : 0 <= dot_product a a.
Proof.
  induction a as [|ai a IH]; cbn [dot_product]; [lra|]. nra.
Qed.

Lemma coeff_sqr_le_dot (a : list R) :
  forall j, nth j a 0 * nth j a 0 <= dot_product a a.
Proof.
  induction a as [|ai a IH]; intros j.
  - destruct j; cbn [nth dot_product]; lra.
  - pose proof (dot_product_nonneg a).
    destruct j as [|j]; cbn [nth dot_product]; [nra|].
    specialize (IH j). nra.
Qed.

(** A coefficient is bounded by the Euclidean norm of its row. *)
Lemma coeff_le_norm (a : list R) (j : nat) :
  Rabs (nth j a 0) <= sqrt (dot_product a a).
Proof.
  rewrite <- sqrt_Rsqr_abs. apply sqrt_le_1_alt. unfold Rsqr.
  apply coeff_sqr_le_dot.
Qed.

Lemma vdot_from_ext (a : list R) (p q : point) :
  forall k, (forall j, (k <= j)%nat -> p j = q j) ->
    vdot_from k a p = vdot_from k a q.
Proof.
  induction a as [|ai a IH]; intros k H; cbn [vdot_from]; [reflexivity|].
  rewrite (H k (le_n k)), (IH (S k)); [reflexivity|].
  intros j Hj. apply H. lia.
Qed.

(** Moving a point along the row itself changes the row's value by the
    squared norm. *)
Lemma vdot_from_along (p : point) (t : R) :
  forall (a : list R) (k : nat),
    vdot_from k a (fun j => p j + t * nth (j - k) a 0)
    = vdot_from k a p + t * dot_product a a.
Proof.
  induction a as [|ai a IH]; intros k; cbn [vdot_from dot_product]; [lra|].
  rewrite Nat.sub_diag. cbn [nth].
  rewrite (vdot_from_ext a _ (fun j => p j + t * nth (j - S k) a 0) (S k)).
  - rewrite IH. lra.
  - intros j Hj. replace (j - k)%nat with (S (j - S k)) by lia. reflexivity.
Qed.

Lemma vdot_along (p : point) (t : R) (a : list R) :
  vdot a (fun j => p j + t * nth j a 0) = vdot a p + t * dot_product a a.
Proof.
  unfold vdot. rewrite <- vdot_from_along.
  apply vdot_from_ext. intros j _. now rewrite Nat.sub_0_r.
Qed.

Lemma Rabs_bounds (a b : R) : Rabs a <= b -> - b <= a <= b.
Proof.
  intros H. pose proof (Rle_abs a) as H1. pose proof (Rle_abs (- a)) as H2.
  rewrite Rabs_Ropp in H2. lra.
Qed.

(** A half-space that contains the box leaves room for the ball of radius
    [r] around the center. *)
Lemma row_fits_ball (a : list R) (bi : R) (c : list R) (r : R) :
  0 <= r ->
  (forall y, in_box c r y -> vdot a y <= bi) ->
  vdot a (point_of c) + sqrt (dot_product a a) * r <= bi.
Proof.
  intros Hr Hbox.
  pose proof (sqrt_pos (dot_product a a)) as Hn.
  destruct (Req_dec (sqrt (dot_product a a)) 0) as [E|E].
  - rewrite E. assert (H : vdot a (point_of c) <= bi); [|lra].
    apply Hbox. intros i _. unfold point_of. lra.
  - set (nrm := sqrt (dot_product a a)) in *.
    assert (Hpos : 0 < nrm) by lra.
    assert (Hk : 0 <= r / nrm).
    { unfold Rdiv. apply Rmult_le_pos; [lra|].
      apply Rlt_le, Rinv_0_lt_compat. exact Hpos. }
    assert (Hkn : r / nrm * nrm = r) by (field; lra).
    assert (Hy : in_box c r (fun j => point_of c j + r / nrm * nth j a 0)).
    { intros i _. unfold point_of.
      pose proof (coeff_le_norm a i) as Hc. fold nrm in Hc.
      apply Rabs_bounds in Hc. destruct Hc as [Hc1 Hc2].
      pose proof (Rmult_le_compat_l _ _ _ Hk Hc1).
      pose proof (Rmult_le_compat_l _ _ _ Hk Hc2). lra. }
    apply Hbox in Hy. rewrite vdot_along in Hy.
    assert (Hsq : dot_product a a = nrm * nrm)
      by (unfold nrm; now rewrite sqrt_sqrt by apply dot_product_nonneg).
    rewrite Hsq in Hy.
    replace (r / nrm * (nrm * nrm)) with (nrm * r) in Hy by (field; lra).
    exact Hy.
Qed.

(** A point whose margin fits a row can move by the margin along any axis
    without leaving the half-space of the row. *)
Lemma row_admits_bump (a : list R) (bi : R) (x : point) (rho : R) (i : nat) :
  0 <= rho ->
  vdot a x + sqrt (dot_product a a) * rho <= bi ->
  vdot a (bump x i rho) <= bi /\ vdot a (bump x i (- rho)) <= bi.
Proof.
  intros Hrho H. rewrite !vdot_bump.
  pose proof (coeff_le_norm a i) as Hc.
  apply Rabs_bounds in Hc. destruct Hc as [Hc1 Hc2].
  pose proof (Rmult_le_compat_r _ _ _ Hrho Hc1).
  pose proof (Rmult_le_compat_r _ _ _ Hrho Hc2).
  split; lra.
Qed.

Section BoxLikeRows.

(** Any rows that describe the box of center [c] and radius [r]. *)
Variables (rows : list (list R * R)) (c : list R) (r : R).
Hypothesis rows_describe_box :
  forall y, Forall (fun rb : list R * R => vdot (fst rb) y <= snd rb) rows
            <-> in_box c r y.
Hypothesis radius_positive : 0 < r.

Lemma box_like_center_fits : cheby_fits rows (cheby_point c r).
Proof.
  unfold cheby_fits. rewrite Forall_forall. intros [a bi] Hin. cbn [fst snd].
  rewrite cheby_point_r.
  change (fun j => cheby_point c r (cheby_x j)) with (point_of c).
  apply row_fits_ball; [lra|].
  intros y Hy. apply rows_describe_box in Hy.
  rewrite Forall_forall in Hy. exact (Hy (a, bi) Hin).
Qed.

Lemma box_like_margin_bound (s : assignment) :
  cheby_fits rows s -> 0 <= s (cheby_r 0%nat) ->
  forall i, (i < length c)%nat ->
    s (cheby_x i) + s (cheby_r 0%nat) <= nth i c 0 + r /\
    nth i c 0 - r <= s (cheby_x i) - s (cheby_r 0%nat).
Proof.
  intros Hs Hrho i Hi. unfold cheby_fits in Hs. rewrite Forall_forall in Hs.
  set (x := fun j => s (cheby_x j)) in *.
  assert (Hup : in_box c r (bump x i (s (cheby_r 0%nat)))).
  { apply rows_describe_box. rewrite Forall_forall. intros [a bi] Hin.
    cbn [fst snd]. apply row_admits_bump; [exact Hrho|].
    exact (Hs (a, bi) Hin). }
  assert (Hdown : in_box c r (bump x i (- s (cheby_r 0%nat)))).
  { apply rows_describe_box. rewrite Forall_forall. intros [a bi] Hin.
    cbn [fst snd].
    apply (row_admits_bump a bi x (s (cheby_r 0%nat)) i Hrho).
    exact (Hs (a, bi) Hin). }
  specialize (Hup i Hi). specialize (Hdown i Hi).
  unfold bump in Hup, Hdown. rewrite Nat.eqb_refl in Hup, Hdown.
  subst x. cbn beta in Hup, Hdown. lra.
Qed.

End BoxLikeRows.

(** At an optimum of the LP on rows that describe a box of positive radius,
    the margin is the radius and the point is the center. *)
Lemma box_like_optimal_point (rows : list (list R * R)) (c : list R) (r : R)
    (s : assignment) :
  (forall y, Forall (fun rb : list R * R => vdot (fst rb) y <= snd rb) rows
             <-> in_box c r y) ->
  0 < r ->
  cheby_fits rows s ->
  (forall s', cheby_fits rows s' -> s' (cheby_r 0%nat) <= s (cheby_r 0%nat)) ->
  map (fun i => s (cheby_x i)) (range (length c)) = c.
Proof.
  intros Hrows Hr Hs Hopt.
  pose proof (Hopt _ (box_like_center_fits rows c r Hrows Hr)) as Hge.
  rewrite cheby_point_r in Hge.
  apply nth_ext with (d := 0) (d' := 0).
  - unfold range. now rewrite length_map, length_seq.
  - intros i Hi. unfold range in *. rewrite length_map, length_seq in Hi.
    rewrite (nth_indep _ 0 (s (cheby_x 0%nat)))
      by (now rewrite length_map, length_seq).
    rewrite (map_nth (fun i => s (cheby_x i))).
    rewrite seq_nth by exact Hi. cbn [Nat.add].
    destruct (box_like_margin_bound rows c r Hrows s Hs ltac:(lra) i Hi).
    lra.
Qed.

Lemma Hrep_rows_shape (P : polyhedron) (n : nat) :
  Forall (fun h => length (h_coeffs h) = n) (Hrepresentation P) ->
  Forall (fun rb : list R * R => length (fst rb) = n) (Hrep_rows P).
Proof.
  intros H. unfold Hrep_rows. rewrite Forall_flat_map.
  eapply Forall_impl; [|exact H].
  intros h Hh. unfold Hrep_rows_of, vec_neg.
  destruct (is_equation h); repeat constructor; cbn [fst];
    rewrite ?length_map; exact Hh.
Qed.

Lemma matrix_of_rows_shape (K : ring) (rows : list (list R * R)) (n : nat) :
  rows <> [] ->
  Forall (fun rb : list R * R => length (fst rb) = n) rows ->
  mat_ncols (matrix_of K (map fst rows)) = n /\
  Forall (fun row => length row = n) (mat_rows (matrix_of K (map fst rows))).
Proof.
  intros Hne Hshape. unfold matrix_of. cbn [mat_ncols mat_rows]. split.
  - destruct rows as [|[a bi] rows]; [contradiction|].
    apply Forall_inv in Hshape. exact Hshape.
  - rewrite map_map_coerce, Forall_map. exact Hshape.
Qed.

Lemma box_not_everything (c : list R) (r : R) :
  c <> [] -> ~ (forall y, in_box c r y).
Proof.
  intros Hc H. destruct c as [|c0 c]; [contradiction|].
  specialize (H (fun _ => c0 + r + 1) 0%nat ltac:(cbn [length]; lia)).
  cbn [nth] in H. lra.
Qed.


Lemma nonempty_length {A : Type} (l : list A) : l <> [] -> (0 < length l)%nat.
Proof. destruct l; [contradiction | cbn [length]; lia]. Qed.

Section BoxObject.

(** A polytope object that the engine may return for the box of center
    [c] and positive radius [r]. *)
Variables (c : list R) (r : R) (K : ring) (P : polyhedron).
Hypothesis center_has_coordinates : c <> [].
Hypothesis radius_positive : 0 < r.
Hypothesis object_ok : engine_answer_ok (box_request K c r) P.

Lemma box_object_rows :
  forall y, Forall (fun rb : list R * R => vdot (fst rb) y <= snd rb)
                   (Hrep_rows P) <-> in_box c r y.
Proof.
  pose proof object_ok as [Hreg _].
  assert (HP : forall y, poly_contains P y <-> in_box c r y).
  { intros y. rewrite (Hreg y). unfold box_request. cbn [req_ieqs].
    rewrite ieqs_of_region. apply box_region. }
  intros y. rewrite Hrep_rows_region; [apply HP|].
  destruct (box_full_dimensional K c r radius_positive)
    as (p & eps & Heps & Hbox).
  exists p, eps. split; [exact Heps|].
  intros z Hz. apply HP, (box_region K), Hbox, Hz.
Qed.

Lemma box_object_shape :
  mat_nrows (to_Hrep_A P) = length (vec_entries (to_Hrep_b P)) /\
  mat_ncols (to_Hrep_A P) = length c /\
  Forall (fun row => length row = mat_ncols (to_Hrep_A P))
         (mat_rows (to_Hrep_A P)).
Proof.
  pose proof object_ok as [_ Hshape].
  unfold box_request in Hshape. cbn [req_ambient_dim] in Hshape.
  assert (Hne : Hrep_rows P <> []).
  { intros E. apply (box_not_everything c r center_has_coordinates).
    intros y. apply box_object_rows. rewrite E. constructor. }
  destruct (matrix_of_rows_shape RDF (Hrep_rows P) (length c) Hne
              (Hrep_rows_shape P (length c) Hshape)) as [Hncols Hwf].
  split; [|split].
  - unfold to_Hrep_A, to_Hrep_b, mat_nrows, matrix_of, vector_of.
    cbn [mat_rows vec_entries]. now rewrite !length_map.
  - exact Hncols.
  - unfold to_Hrep_A. now rewrite Hncols.
Qed.

Lemma box_object_feasible (s : assignment) :
  milp_feasible (cheby_lp (to_Hrep_A P) (to_Hrep_b P)) s
  <-> cheby_fits (Hrep_rows P) s.
Proof.
  rewrite cheby_lp_feasible by apply box_object_shape.
  unfold to_Hrep_A, to_Hrep_b, matrix_of, vector_of.
  cbn [mat_rows vec_entries].
  rewrite map_map_coerce, map_coerce, combine_fst_snd. reflexivity.
Qed.

Lemma box_object_objective (s : assignment) :
  lin_eval (milp_objective (cheby_lp (to_Hrep_A P) (to_Hrep_b P))) s
  = s (cheby_r 0%nat).
Proof. unfold cheby_lp. cbn [milp_objective]. apply cheby_objective_eval. Qed.

(** The margin of a feasible point is at most the radius. *)
Lemma box_object_margin (s : assignment) :
  cheby_fits (Hrep_rows P) s -> s (cheby_r 0%nat) <= r.
Proof.
  intros Hs. destruct (Rlt_or_le (s (cheby_r 0%nat)) 0) as [Hneg|Hnn]; [lra|].
  destruct (box_like_margin_bound _ _ r box_object_rows s Hs Hnn 0%nat
              (nonempty_length c center_has_coordinates)).
  lra.
Qed.

(** The center with the radius as margin is an optimum of the LP. *)
Lemma box_object_optimum :
  solver_answer_ok (cheby_lp (to_Hrep_A P) (to_Hrep_b P))
                   (Optimal r (cheby_point c r)).
Proof.
  cbn [solver_answer_ok]. split; [|split].
  - apply box_object_feasible.
    exact (box_like_center_fits _ c r box_object_rows radius_positive).
  - now rewrite box_object_objective, cheby_point_r.
  - intros s' Hs'. rewrite box_object_objective.
    apply box_object_margin, box_object_feasible, Hs'.
Qed.

(** With a solver that honours its contract the function returns the
    center, over the ring [RDF] of the converter. *)
Lemma box_object_center (solve : MILP -> lp_status)
    (engine : ieqs_request -> polyhedron) :
  answers_ok solve engine (chebyshev_center (VPolyhedron P) VNone VNone) ->
  run solve engine (chebyshev_center (VPolyhedron P) VNone VNone)
  = Ok (VVector (mk_vector RDF c)).
Proof.
  rewrite chebyshev_center_polyhedron.
  fold (to_Hrep_A P). fold (to_Hrep_b P).
  pose proof box_object_shape as (Hlen & Hncols & _).
  rewrite (chebyshev_center_Ab _ _ Hlen).
  unfold mip_solve. cbn [bind answers_ok run].
  intros [Hok _].
  destruct (solve (cheby_lp (to_Hrep_A P) (to_Hrep_b P))) as [oval s| |].
  - cbn [bind run snd]. rewrite Hncols. do 3 f_equal.
    destruct Hok as (Hfeas & Hval & Hopt).
    rewrite map_ext with (g := fun i => s (cheby_x i)) by reflexivity.
    apply (box_like_optimal_point (Hrep_rows P) c r s box_object_rows
             radius_positive).
    + now apply box_object_feasible.
    + intros s' Hs'. apply box_object_feasible, Hopt in Hs'.
      rewrite box_object_objective in Hs', Hval. lra.
  - exfalso. pose proof box_object_optimum as (Hfeas & _).
    exact (Hok _ Hfeas).
  - exfalso. destruct Hok as [_ Hunb].
    destruct (Hunb r) as (s & Hs & Hgt).
    rewrite box_object_objective in Hgt.
    apply box_object_feasible, box_object_margin in Hs. lra.
Qed.

End BoxObject.

(** [BoxInfty(center=c, radius=r, base_ring=K)] asks the constructor for the
    box and hands its object to [chebyshev_center]. *)
Lemma chebyshev_center_of_BoxInfty_object_request (c : list R) (r : R)
    (K : ring) :
  K = QQ \/ K = RDF ->
  chebyshev_center_of_BoxInfty_object c r K
  = NewPolyhedron (box_request K c r)
      (fun P => chebyshev_center (VPolyhedron P) VNone VNone).
Proof.
  intros HK. unfold chebyshev_center_of_BoxInfty_object.
  rewrite BoxInfty_center_radius_object.
  rewrite (polyhedron_from_Hrep_request _ _ K HK)
    by (unfold mat_nrows, box_A, box_b; cbn [mat_rows vec_entries];
        now rewrite !length_map).
  reflexivity.
Qed.

Lemma plain_engine_box_ok (K : ring) (c : list R) (r : R) :
  engine_answer_ok (box_request K c r) (plain_engine (box_request K c r)).
Proof.
  apply plain_engine_ok. unfold box_request. cbn [req_ieqs req_ambient_dim].
  apply (ieqs_of_shape (box_A K c r) (box_b K c r)), box_A_wf.
Qed.



(** * Further properties of the module *)

(** ** [polyhedron_from_Hrep]: what is handed to the constructor *)

(** The constructor receives one row [[b_i, -A_i1, ..., -A_in]] per row of
    [A], the ring that was asked for, the column count of [A] as ambient
    dimension and the backend of that ring ([cdd] for [RDF], [ppl] for
    [QQ]); read as inequalities [offset + coeff . x >= 0], the rows describe
    [{x : A x <= b}]. *)
Theorem polyhedron_from_Hrep_sends_negated_rows :
  forall (A : matrix) (b : vector) (K : ring),
    K = QQ \/ K = RDF ->
    mat_nrows A = length (vec_entries b) ->
    polyhedron_from_Hrep (VMatrix A) (VVector b) K
      = NewPolyhedron
          (mk_request (ieqs_of A b) K (mat_ncols A)
                      (match K with RDF => "cdd" | _ => "ppl" end))
          (fun P => Ret (VPolyhedron P)) /\
    length (ieqs_of A b) = mat_nrows A /\
    forall x, ieqs_contain (ieqs_of A b) x <-> Hrep_feasible A b x.
Proof.
  intros A b K HK Hlen. split; [|split].
  - exact (polyhedron_from_Hrep_request A b K HK Hlen).
  - unfold ieqs_of, mat_nrows in *.
    rewrite length_map, length_combine, <- Hlen. apply Nat.min_id.
  - intros x. apply ieqs_of_region.
Qed.

Lemma polyhedron_from_Hrep_sends_negated_rows_witness :
  polyhedron_from_Hrep (VMatrix segment_A) (VVector segment_b) RDF
    = NewPolyhedron
        (mk_request (ieqs_of segment_A segment_b) RDF (mat_ncols segment_A)
                    "cdd")
        (fun P => Ret (VPolyhedron P)) /\
  length (ieqs_of segment_A segment_b) = mat_nrows segment_A /\
  forall x, ieqs_contain (ieqs_of segment_A segment_b) x
            <-> Hrep_feasible segment_A segment_b x.
Proof.
  apply (polyhedron_from_Hrep_sends_negated_rows segment_A segment_b RDF).
  - right. reflexivity.
  - reflexivity.
Defined.

(** ** [polyhedron_from_Hrep]: errors *)

(** When [b] runs out before the rows of [A] do, the loop stops at the
    first row without a right-hand side. *)
Lemma from_Hrep_loop_short (K Kb : ring) (nc : nat) :
  forall (rows pre post : list (list R)) (bs preb : list R)
         (ieqs : list (list R)),
    length pre = length preb ->
    length ieqs = length pre ->
    length rows = length bs ->
    post <> [] ->
    for_each (seq (length pre) (length rows + length post))
      (fun ieqs_list i =>
        row <- m_row (VMatrix (mk_matrix K nc (pre ++ rows ++ post))) i ;;
        let ieqs_list := ieqs_list ++ [vec_neg row] in
        bi <- num_item (VVector (mk_vector Kb (preb ++ bs))) i ;;
        Ret (set_item ieqs_list i (bi :: nth i ieqs_list []))) ieqs
    = Raise IndexError.
Proof.
  induction rows as [|v rows IH];
    intros pre post bs preb ieqs Hpre Hieqs Hlen Hpost.
  - destruct bs; [|discriminate]. destruct post as [|p post]; [contradiction|].
    cbn [length seq for_each m_row mat_rows num_item vec_entries app
         Nat.add].
    rewrite nth_error_app2, Nat.sub_diag by lia. cbn [nth_error bind].
    rewrite app_nil_r.
    assert (Hb : nth_error preb (length pre) = None)
      by (apply nth_error_None; lia).
    rewrite Hb. reflexivity.
  - destruct bs as [|bi bs]; [discriminate|].
    simpl in Hlen. injection Hlen as Hlen.
    cbn [length seq for_each m_row mat_rows num_item vec_entries Nat.add app].
    rewrite nth_error_app2, Nat.sub_diag by lia.
    assert (Hb : nth_error (preb ++ bi :: bs) (length pre) = Some bi)
      by (rewrite Hpre, nth_error_app2, Nat.sub_diag by lia; reflexivity).
    rewrite Hb. cbn [nth_error bind].
    rewrite <- Hieqs.
    rewrite app_nth2, Nat.sub_diag by lia. cbn [nth].
    rewrite set_item_app.
    specialize (IH (pre ++ [v]) post bs (preb ++ [bi])
                   (ieqs ++ [bi :: vec_neg v])).
    rewrite !length_app, Nat.add_1_r in IH. cbn [length] in IH.
    rewrite <- !app_assoc in IH. cbn [app] in IH.
    rewrite Hieqs.
    exact (IH ltac:(lia) ltac:(lia) Hlen Hpost).
Qed.

(** A ring other than [RDF] and [QQ] is refused with [ValueError] before
    [A] and [b] are looked at; with a supported ring, a vector [b] shorter
    than the number of rows of [A] makes [b[i]] raise [IndexError].  In both
    cases the program stops there: the constructor is not called. *)
Theorem polyhedron_from_Hrep_errors :
  forall (A : matrix) (b : vector) (K : ring) (A0 b0 : value),
    K = QQ \/ K = RDF ->
    (length (vec_entries b) < mat_nrows A)%nat ->
    polyhedron_from_Hrep A0 b0 RR = Raise ValueError /\
    polyhedron_from_Hrep (VMatrix A) (VVector b) K = Raise IndexError.
Proof.
  intros A b K A0 b0 HK Hshort. split; [reflexivity|].
  destruct A as [KA nc rows], b as [Kb bs].
  unfold mat_nrows in Hshort. cbn [mat_rows vec_entries] in Hshort.
  assert (Hsplit : rows = firstn (length bs) rows ++ skipn (length bs) rows)
    by (symmetry; apply firstn_skipn).
  set (rows1 := firstn (length bs) rows) in *.
  set (post := skipn (length bs) rows) in *.
  assert (H1 : length rows1 = length bs)
    by (subst rows1; rewrite length_firstn; lia).
  assert (Hpost : post <> []).
  { intros E. rewrite E, app_nil_r in Hsplit.
    rewrite Hsplit in Hshort. lia. }
  pose proof (from_Hrep_loop_short KA Kb nc rows1 [] post bs [] []
                eq_refl eq_refl H1 Hpost) as Hloop.
  cbn [app length] in Hloop. rewrite <- Hsplit in Hloop.
  assert (Hn : length rows = (length rows1 + length post)%nat)
    by (rewrite Hsplit at 1; apply length_app).
  rewrite <- Hn in Hloop.
  unfold polyhedron_from_Hrep.
  destruct HK as [-> | ->];
    cbn [ring_eqb bind m_ncols m_base_ring m_nrows mat_nrows mat_rows
         mat_ncols vec_entries];
    unfold mat_nrows, range; cbn [mat_rows];
    bind_head Hloop; reflexivity.
Qed.

Lemma polyhedron_from_Hrep_errors_witness :
  polyhedron_from_Hrep VNone VNone RR = Raise ValueError /\
  polyhedron_from_Hrep (VMatrix segment_A) (VVector (mk_vector QQ [1])) QQ
    = Raise IndexError.
Proof.
  apply (polyhedron_from_Hrep_errors segment_A (mk_vector QQ [1]) QQ
           VNone VNone).
  - left. reflexivity.
  - unfold mat_nrows, segment_A. cbn [mat_rows vec_entries length]. lia.
Defined.

(** ** [polyhedron_to_Hrep] with separated equalities *)

Lemma to_Hrep_separated_loop (hs : list Hrep_obj) :
  forall (A : list (list R)) (b : list R) (Aeq : list (list R))
         (beq : list R),
    fold_left (fun (st : list (list R) * list R * list (list R) * list R)
                   (pigen : Hrep_obj) =>
        let '(A, b, Aeq, beq) := st in
        if is_equation pigen then
          let pi_vec := Hvector pigen in
          let Aeq := Aeq ++ [vec_neg (tl pi_vec)] in
          let beq := beq ++ [hd 0 pi_vec] in
          (A, b, Aeq, beq)
        else
          let pi_vec := Hvector pigen in
          let A := A ++ [vec_neg (tl pi_vec)] in
          let b := b ++ [hd 0 pi_vec] in
          (A, b, Aeq, beq)) hs (A, b, Aeq, beq)
    = (A ++ map fst (map negated_row
                       (filter (fun h => negb (is_equation h)) hs)),
       b ++ map snd (map negated_row
                       (filter (fun h => negb (is_equation h)) hs)),
       Aeq ++ map fst (map negated_row (filter is_equation hs)),
       beq ++ map snd (map negated_row (filter is_equation hs))).
Proof.
  induction hs as [|h hs IH]; intros A b Aeq beq.
  - cbn [fold_left filter map]. now rewrite !app_nil_r.
  - cbn [fold_left filter].
    destruct (is_equation h); cbn [negb Hvector hd tl map negated_row fst snd];
      rewrite IH, <- !app_assoc; reflexivity.
Qed.

Lemma separated_rows_region (hs : list Hrep_obj) (x : point) :
  Forall (fun rb : list R * R => vdot (fst rb) x <= snd rb)
         (map negated_row (filter (fun h => negb (is_equation h)) hs)) /\
  Forall (fun rb : list R * R => vdot (fst rb) x = snd rb)
         (map negated_row (filter is_equation hs))
  <-> Forall (fun h => constraint_holds h x) hs.
Proof.
  induction hs as [|h hs IH].
  - cbn [filter map]. split; [constructor | split; constructor].
  - cbn [filter].
    destruct (is_equation h) eqn:Eh; cbn [negb map]; split.
    + intros [Hi He]. inversion He as [|? ? H1 H2]; subst.
      constructor; [|apply IH; now split].
      unfold constraint_holds. rewrite Eh.
      cbn [negated_row fst snd] in H1. rewrite vdot_neg in H1. lra.
    + intros H. inversion H as [|? ? H1 H2]; subst.
      apply IH in H2. destruct H2 as [Hi He]. split; [exact Hi|].
      constructor; [|exact He].
      unfold constraint_holds in H1. rewrite Eh in H1.
      cbn [negated_row fst snd]. rewrite vdot_neg. lra.
    + intros [Hi He]. inversion Hi as [|? ? H1 H2]; subst.
      constructor; [|apply IH; now split].
      unfold constraint_holds. rewrite Eh.
      cbn [negated_row fst snd] in H1. rewrite vdot_neg in H1. lra.
    + intros H. inversion H as [|? ? H1 H2]; subst.
      apply IH in H2. destruct H2 as [Hi He]. split; [|exact He].
      constructor; [|exact Hi].
      unfold constraint_holds in H1. rewrite Eh in H1.
      cbn [negated_row fst snd]. rewrite vdot_neg. lra.
Qed.

Lemma filter_split_length {A : Type} (f : A -> bool) (l : list A) :
  (length (filter (fun a => negb (f a)) l) + length (filter f l))%nat
  = length l.
Proof.
  induction l as [|a l IH]; [reflexivity|].
  cbn [filter]. destruct (f a); cbn [negb length]; lia.
Qed.


(** ** [polyhedron_to_Hrep] without separation: sizes and exact cases *)

Lemma Hrep_rows_length (hs : list Hrep_obj) :
  length (flat_map Hrep_rows_of hs)
  = (length hs + length (filter is_equation hs))%nat.
Proof.
  induction hs as [|h hs IH]; [reflexivity|].
  cbn [flat_map filter]. rewrite length_app, IH. unfold Hrep_rows_of.
  destruct (is_equation h); cbn [length]; lia.
Qed.

(** Without separation the converter returns a model [(A, b)] whose sizes
    match: [A] has as many rows as [b] has entries, one per inequality and
    two per equation of the object. *)
Theorem polyhedron_to_Hrep_sizes :
  forall P : polyhedron,
  exists (A : matrix) (b : vector),
    polyhedron_to_Hrep (VPolyhedron P) false
      = Ret (VList [VMatrix A; VVector b]) /\
    mat_nrows A = length (vec_entries b) /\
    mat_nrows A
      = (length (Hrepresentation P)
         + length (filter is_equation (Hrepresentation P)))%nat.
Proof.
  intros P. exists (to_Hrep_A P), (to_Hrep_b P).
  split; [apply polyhedron_to_Hrep_rows|].
  unfold mat_nrows, to_Hrep_A, to_Hrep_b, matrix_of, vector_of, Hrep_rows.
  cbn [mat_rows vec_entries]. rewrite !length_map.
  split; [reflexivity | apply Hrep_rows_length].
Qed.

(** With every equation at offset zero, the rows of the converter describe
    the region of the object. *)
Lemma to_Hrep_region_zero_offsets (P : polyhedron) (x : point) :
  Forall (fun h => is_equation h = true -> h_offset h = 0)
         (Hrepresentation P) ->
  (Hrep_feasible (to_Hrep_A P) (to_Hrep_b P) x <-> poly_contains P x).
Proof.
  intros Hzero. unfold to_Hrep_A, to_Hrep_b. rewrite Hrep_feasible_of_rows.
  unfold Hrep_rows, poly_contains. rewrite Forall_flat_map.
  apply Forall_equiv. intros h Hh.
  rewrite Forall_forall in Hzero. specialize (Hzero h Hh).
  unfold constraint_holds. destruct (is_equation h) eqn:Eh.
  - rewrite (Hrep_rows_of_equation h x Eh), (Hzero eq_refl). split; lra.
  - unfold Hrep_rows_of. rewrite Eh. split.
    + intros H. inversion H as [|? ? H1 _]; subst. cbn [fst snd] in H1.
      rewrite vdot_neg in H1. lra.
    + intros H. constructor; [|constructor]. cbn [fst snd].
      rewrite vdot_neg. lra.
Qed.



(** ** The two sign changes of the converter cancel *)

Lemma vec_neg_involutive (v : list R) : vec_neg (vec_neg v) = v.
Proof.
  unfold vec_neg. rewrite map_map. rewrite <- (map_id v) at 2.
  apply map_ext. intros a. lra.
Qed.

Lemma ieqs_of_to_Hrep (P : polyhedron) :
  Forall (fun h => is_equation h = false) (Hrepresentation P) ->
  ieqs_of (to_Hrep_A P) (to_Hrep_b P) = map Hvector (Hrepresentation P).
Proof.
  intros Hineq. unfold ieqs_of, to_Hrep_A, to_Hrep_b, matrix_of, vector_of.
  cbn [mat_rows vec_entries].
  rewrite map_map_coerce, map_coerce, combine_fst_snd.
  rewrite <- (supp_fun_extract_no_equation P Hineq), map_map.
  apply map_ext. intros h. cbn [fst snd]. now rewrite vec_neg_involutive.
Qed.



(** ** [BoxInfty]: how the arguments are read *)

(** [BoxInfty(c, r)], with the center and the radius as the two positional
    arguments, is the program of [BoxInfty(center=c, radius=r)]; and the
    function raises [ValueError] when no lengths are given and the center or
    the radius is missing, and when lengths are given together with a
    radius. *)
Theorem BoxInfty_arguments :
  (forall (c r : value) (K : ring) (return_HSpaceRep : bool),
      c <> VNone -> r <> VNone ->
      BoxInfty c r VNone K return_HSpaceRep
      = BoxInfty VNone c r K return_HSpaceRep) /\
  (forall (lengths center radius : value) (K : ring)
          (return_HSpaceRep : bool),
      (lengths = VNone /\ (center = VNone \/ radius = VNone)) \/
      (lengths <> VNone /\ radius <> VNone) ->
      BoxInfty lengths center radius K return_HSpaceRep = Raise ValueError).
Proof.
  split.
  - intros c r K flag Hc Hr. unfold BoxInfty.
    destruct c; try contradiction; destruct r; try contradiction;
      reflexivity.
  - intros lengths center radius K flag [[-> [-> | ->]] | [Hl Hr]].
    + destruct radius; reflexivity.
    + destruct center; reflexivity.
    + destruct lengths; try contradiction; destruct radius;
        try contradiction; destruct center; reflexivity.
Qed.

(** ** [BoxInfty]: the model of a center and a radius *)

Lemma flat_map_pairs_length :
  forall (T : Type) (f : nat -> list T) (l : list nat),
    (forall i, length (f i) = 2%nat) ->
    length (flat_map f l) = (2 * length l)%nat.
Proof.
  intros T f l Hf. induction l as [|i l IH]; [reflexivity|].
  cbn [flat_map]. rewrite length_app, Hf, IH. cbn [length]. lia.
Qed.


(** ** [BoxInfty]: the model of a list of sides *)

Lemma for_each_pure {A S : Type} (body : S -> A -> prog S) (f : S -> A -> S) :
  forall (l : list A) (s : S),
    (forall s i, In i l -> body s i = Ret (f s i)) ->
    for_each l body s = Ret (fold_left f l s).
Proof.
  induction l as [|a l IH]; intros s H; [reflexivity|].
  cbn [for_each fold_left]. rewrite (H s a (or_introl eq_refl)). cbn [bind].
  apply IH. intros s' i Hi. apply H. now right.
Qed.

Lemma for_each_raises {A S : Type} (body : S -> A -> prog S) (e : exn)
    (good : A -> bool) :
  (forall s i, good i = true -> exists s', body s i = Ret s') ->
  (forall s i, good i = false -> body s i = Raise e) ->
  forall (l : list A) (s : S),
    (exists i, In i l /\ good i = false) ->
    for_each l body s = Raise e.
Proof.
  intros Hgood Hbad. induction l as [|a l IH]; intros s [i [Hi Hg]].
  - destruct Hi.
  - cbn [for_each]. destruct (good a) eqn:Ha.
    + destruct (Hgood s a Ha) as [s' ->]. cbn [bind]. apply IH.
      destruct Hi as [-> | Hi]; [congruence|]. now exists i.
    + now rewrite (Hbad s a Ha).
Qed.

Lemma make_listlist_lists (L : list (list R)) :
  _make_listlist (lengths_value L) = Ret (map (map VNum) L).
Proof.
  unfold lengths_value, _make_listlist.
  induction L as [|l L IH]; [reflexivity|].
  cbn [map _make_listlist_aux]. rewrite IH. reflexivity.
Qed.

Lemma cast_listlist_nums (K : ring) (L : list (list R)) :
  cast_listlist K (map (map VNum) L) = Ret L.
Proof.
  induction L as [|l L IH]; [reflexivity|].
  cbn [map cast_listlist]. rewrite cast_list_nums. cbn [bind].
  rewrite IH. reflexivity.
Qed.

Lemma real_item_two (l : list R) :
  (2 <= length l)%nat ->
  real_item l 1 = Ret (nth 1 l 0) /\ real_item l 0 = Ret (nth 0 l 0).
Proof.
  intros H. destruct l as [|x [|y l]]; cbn [length] in H; try lia.
  split; reflexivity.
Qed.

Lemma real_item_short (l : list R) :
  (length l < 2)%nat -> real_item l 1 = Raise IndexError.
Proof.
  intros H. destruct l as [|x [|y l]]; cbn [length] in H; try lia;
    reflexivity.
Qed.

(** [BoxInfty(lengths=L, base_ring=K, return_HSpaceRep=flag)] when every
    side has its two numbers. *)
Lemma BoxInfty_lengths_any (K : ring) (L : list (list R))
    (return_HSpaceRep : bool) :
  Forall (fun l => (2 <= length l)%nat) L ->
  BoxInfty (lengths_value L) VNone VNone K return_HSpaceRep
  = if negb return_HSpaceRep
    then polyhedron_from_Hrep (VMatrix (lengths_A K L))
                              (VVector (lengths_b K L)) K
    else Ret (VList [VMatrix (lengths_A K L); VVector (lengths_b K L)]).
Proof.
  intros Hall. unfold BoxInfty.
  change (is_None (lengths_value L)) with false.
  cbn [is_None negb andb].
  rewrite make_listlist_lists. cbn [bind].
  rewrite cast_listlist_nums. cbn [bind].
  assert (HA : length (repeat (zero_vector (length L)) (2 * length L))
               = (2 * length (range (length L)))%nat)
    by (unfold range; now rewrite repeat_length, length_seq).
  assert (Hb : length (zero_vector (2 * length L))
               = (2 * length (range (length L)))%nat)
    by (unfold range, zero_vector; now rewrite repeat_length, length_seq).
  pose (f := fun (st : list (list R) * list R * nat) (i : nat) =>
               let '(A, b, count) := st in
               (set_item (set_item A count
                            (set_item (zero_vector (length L)) i 1))
                         (S count)
                         (vec_neg (set_item (zero_vector (length L)) i 1)),
                set_item (set_item b count (nth 1 (nth i L []) 0))
                         (S count) (- nth 0 (nth i L []) 0),
                S (S count))).
  pose proof (box_loop
    (fun i => axis_rows (length L) i (nth 0 (nth i L []) 0)
                        (nth 1 (nth i L []) 0)) f
    (fun _ => eq_refl) (fun _ _ _ _ => eq_refl)
    (range (length L)) [] (repeat (zero_vector (length L)) (2 * length L))
    [] (zero_vector (2 * length L)) eq_refl HA Hb) as Hloop.
  cbn [app length] in Hloop.
  match goal with |- context [for_each ?l ?body ?s] =>
    assert (Hfor : for_each l body s = Ret (fold_left f l s))
  end.
  { apply for_each_pure. intros [[A b] count] i Hi.
    apply in_seq in Hi.
    assert (Hl : (2 <= length (nth i L []))%nat).
    { rewrite Forall_forall in Hall. apply Hall. apply nth_In. lia. }
    destruct (real_item_two _ Hl) as [H1 H0].
    rewrite H1. cbn [bind]. rewrite H0. reflexivity. }
  rewrite Hfor, Hloop. cbn [bind]. reflexivity.
Qed.

Lemma lengths_region (K : ring) (L : list (list R)) (x : point) :
  Hrep_feasible (lengths_A K L) (lengths_b K L) x <-> in_intervals L x.
Proof.
  unfold Hrep_feasible, lengths_A, lengths_b, in_intervals.
  cbn [mat_rows vec_entries].
  rewrite combine_fst_snd. unfold lengths_rows.
  rewrite Forall_flat_map, Forall_forall.
  assert (Haxis : forall i lo hi, (i < length L)%nat ->
            (Forall (fun rb : list R * R => vdot (fst rb) x <= snd rb)
                    (axis_rows (length L) i lo hi)
             <-> lo <= x i <= hi)).
  { intros i lo hi Hi. unfold axis_rows. split.
    - intros H. inversion H as [|? ? H1 H']; subst.
      inversion H' as [|? ? H2 _]; subst. cbn [fst snd] in H1, H2.
      rewrite vdot_neg in H2. rewrite vdot_unit in H1, H2 by exact Hi. lra.
    - intros [H1 H2]. constructor; [|constructor; [|constructor]];
        cbn [fst snd]; rewrite ?vdot_neg, vdot_unit by exact Hi; lra. }
  split.
  - intros H i Hi. apply Haxis; [exact Hi|]. apply H. apply in_seq. lia.
  - intros H i Hi. apply in_seq in Hi. apply Haxis; [lia|]. apply H. lia.
Qed.

Lemma lengths_A_wf (K : ring) (L : list (list R)) :
  Forall (fun row => length row = length L) (mat_rows (lengths_A K L)).
Proof.
  unfold lengths_A, lengths_rows. cbn [mat_rows].
  rewrite Forall_map, Forall_flat_map, Forall_forall. intros i _.
  unfold axis_rows. constructor; [|constructor; [|constructor]];
    cbn [fst]; unfold vec_neg; rewrite ?length_map, set_item_length;
    unfold zero_vector; apply repeat_length.
Qed.

(** [BoxInfty(lengths=L, return_HSpaceRep=True)], each side of [L] having
    at least its two numbers [(min, max)], returns a model [(A, b)] with
    two rows and one column per side, over the ring that was asked for, and
    [{x : A x <= b}] is the product of the intervals [[min_i, max_i]]. *)
Theorem BoxInfty_lengths_model :
  forall (L : list (list R)) (K : ring),
    Forall (fun l => (2 <= length l)%nat) L ->
    exists (A : matrix) (b : vector),
      BoxInfty (lengths_value L) VNone VNone K true
        = Ret (VList [VMatrix A; VVector b]) /\
      mat_ring A = K /\ vec_ring b = K /\
      mat_nrows A = (2 * length L)%nat /\
      length (vec_entries b) = (2 * length L)%nat /\
      mat_ncols A = length L /\
      Forall (fun row => length row = length L) (mat_rows A) /\
      forall x, Hrep_feasible A b x <-> in_intervals L x.
Proof.
  intros L K Hall. exists (lengths_A K L), (lengths_b K L).
  split; [exact (BoxInfty_lengths_any K L true Hall)|].
  assert (Hlen : length (lengths_rows L) = (2 * length L)%nat).
  { unfold lengths_rows.
    rewrite (flat_map_pairs_length _ _ (range (length L))).
    - unfold range. now rewrite length_seq.
    - intros i. reflexivity. }
  split; [reflexivity|]. split; [reflexivity|].
  split; [unfold mat_nrows, lengths_A; cbn [mat_rows];
          now rewrite length_map|].
  split; [unfold lengths_b; cbn [vec_entries]; now rewrite length_map|].
  split; [reflexivity|].
  split; [exact (lengths_A_wf K L)|].
  intros x. apply lengths_region.
Qed.

Lemma BoxInfty_lengths_model_witness :
  Forall (fun l => (2 <= length l)%nat) [[0; 2]; [0; 4]] /\
  exists (A : matrix) (b : vector),
    BoxInfty (lengths_value [[0; 2]; [0; 4]]) VNone VNone QQ true
      = Ret (VList [VMatrix A; VVector b]) /\
    mat_ring A = QQ /\ vec_ring b = QQ /\
    mat_nrows A = (2 * length [[0; 2]; [0; 4]])%nat /\
    length (vec_entries b) = (2 * length [[0; 2]; [0; 4]])%nat /\
    mat_ncols A = length [[0; 2]; [0; 4]] /\
    Forall (fun row => length row = length [[0; 2]; [0; 4]]) (mat_rows A) /\
    forall x, Hrep_feasible A b x <-> in_intervals [[0; 2]; [0; 4]] x.
Proof.
  assert (H : Forall (fun l : list R => (2 <= length l)%nat)
                     [[0; 2]; [0; 4]]).
  { constructor; [cbn [length]; lia|].
    constructor; [cbn [length]; lia|]. constructor. }
  split; [exact H|].
  exact (BoxInfty_lengths_model [[0; 2]; [0; 4]] QQ H).
Defined.

(** ** [BoxInfty]: a side with fewer than two numbers *)

(** [BoxInfty(lengths=L)] raises [IndexError] as soon as one side of [L]
    has fewer than two numbers, whatever the other sides are and in both
    output modes; no polytope is requested. *)
Theorem BoxInfty_lengths_short_side :
  forall (L : list (list R)) (K : ring) (return_HSpaceRep : bool) (i : nat),
    (i < length L)%nat ->
    (length (nth i L []) < 2)%nat ->
    BoxInfty (lengths_value L) VNone VNone K return_HSpaceRep
    = Raise IndexError.
Proof.
  intros L K flag i Hi Hshort. unfold BoxInfty.
  change (is_None (lengths_value L)) with false.
  cbn [is_None negb andb].
  rewrite make_listlist_lists. cbn [bind].
  rewrite cast_listlist_nums. cbn [bind].
  match goal with |- context [for_each ?l ?body ?s] =>
    assert (Hfor : for_each l body s = Raise IndexError)
  end.
  { apply (for_each_raises _ IndexError
             (fun j => (2 <=? length (nth j L []))%nat)).
    - intros [[A b] count] j Hj. apply Nat.leb_le in Hj.
      destruct (real_item_two _ Hj) as [H1 H0].
      rewrite H1. cbn [bind]. rewrite H0. cbn [bind]. eexists. reflexivity.
    - intros [[A b] count] j Hj. apply Nat.leb_gt in Hj.
      rewrite (real_item_short _ Hj). reflexivity.
    - exists i. split; [apply in_seq; lia|]. apply Nat.leb_gt. exact Hshort. }
  rewrite Hfor. reflexivity.
Qed.

Lemma BoxInfty_lengths_short_side_witness :
  (1 < length [[0; 2]; [3]])%nat /\
  (length (nth 1 [[0; 2]; [3]] []) < 2)%nat /\
  BoxInfty (lengths_value [[0; 2]; [3]]) VNone VNone QQ false
  = Raise IndexError.
Proof.
  assert (H1 : (1 < length [[0; 2]; [3]])%nat) by (cbn [length]; lia).
  assert (H2 : (length (nth 1 [[0; 2]; [3]] []) < 2)%nat)
    by (cbn [nth length]; lia).
  split; [exact H1|]. split; [exact H2|].
  exact (BoxInfty_lengths_short_side [[0; 2]; [3]] QQ false 1%nat H1 H2).
Defined.

(** ** [BoxInfty]: sides against center and radius *)

Lemma flat_map_ext_in {A B : Type} (f g : A -> list B) (l : list A) :
  (forall a, In a l -> f a = g a) -> flat_map f l = flat_map g l.
Proof.
  induction l as [|a l IH]; intros H; [reflexivity|].
  cbn [flat_map]. rewrite (H a (or_introl eq_refl)), IH; [reflexivity|].
  intros a' Ha'. apply H. now right.
Qed.

Lemma sides_rows (c : list R) (r : R) :
  lengths_rows (sides_of c r) = box_rows c r.
Proof.
  unfold lengths_rows, box_rows, sides_of. rewrite length_map.
  apply flat_map_ext_in. intros i Hi. apply in_seq in Hi.
  rewrite (nth_indep _ [] ((fun ci => [ci - r; ci + r]) 0))
    by (rewrite length_map; lia).
  rewrite (map_nth (fun ci => [ci - r; ci + r])). reflexivity.
Qed.

(** [BoxInfty(lengths=[(c_i - r, c_i + r) ...])] is the program of
    [BoxInfty(center=c, radius=r)]: the same model, returned or handed to
    the polytope constructor in the same way. *)
Theorem BoxInfty_sides_of_center_radius :
  forall (c : list R) (r : R) (K : ring) (return_HSpaceRep : bool),
    BoxInfty (lengths_value (sides_of c r)) VNone VNone K return_HSpaceRep
    = BoxInfty VNone (VList (map VNum c)) (VNum r) K return_HSpaceRep.
Proof.
  intros c r K flag.
  rewrite BoxInfty_lengths_any, BoxInfty_center_radius_any.
  - unfold lengths_A, lengths_b, box_A, box_b.
    rewrite sides_rows. unfold sides_of. rewrite length_map. reflexivity.
  - unfold sides_of. rewrite Forall_map, Forall_forall. intros ci _.
    cbn [length]. lia.
Qed.

(** ** [chebyshev_center]: what the returned point is *)

Lemma vdot_from_agree (a : list R) (p q : point) :
  forall k, (forall j, (k <= j < k + length a)%nat -> p j = q j) ->
    vdot_from k a p = vdot_from k a q.
Proof.
  induction a as [|ai a IH]; intros k H; cbn [vdot_from]; [reflexivity|].
  rewrite (H k), (IH (S k)); [reflexivity| |cbn [length]; lia].
  intros j Hj. apply H. cbn [length]. lia.
Qed.

Lemma margin_fits_agree (A : matrix) (b : vector) (p q : point) (t : R) :
  Forall (fun row => length row = mat_ncols A) (mat_rows A) ->
  (forall j, (j < mat_ncols A)%nat -> p j = q j) ->
  margin_fits A b p t -> margin_fits A b q t.
Proof.
  intros Hwf Hpq. unfold margin_fits. apply Forall_equiv.
  intros [row bi] Hin. apply in_combine_l in Hin.
  rewrite Forall_forall in Hwf. specialize (Hwf row Hin).
  cbn [fst snd]. unfold vdot.
  rewrite (vdot_from_agree row p q 0); [reflexivity|].
  intros j Hj. apply Hpq. lia.
Qed.

Lemma point_of_values (s : assignment) (m j : nat) :
  (j < m)%nat ->
  point_of (map (fun i => s (cheby_x i)) (range m)) j = s (cheby_x j).
Proof.
  intros Hj. unfold point_of, range.
  rewrite (nth_indep _ 0 (s (cheby_x 0%nat)))
    by (now rewrite length_map, length_seq).
  rewrite (map_nth (fun i => s (cheby_x i))).
  now rewrite seq_nth.
Qed.

(** The feasible points of the LP are the pairs of a point and a margin
    that fits there. *)
Lemma cheby_lp_margin (A : matrix) (b : vector) (s : assignment) :
  Forall (fun row => length row = mat_ncols A) (mat_rows A) ->
  (milp_feasible (cheby_lp A b) s <->
   margin_fits A b (fun j => s (cheby_x j)) (s (cheby_r 0%nat))).
Proof. exact (cheby_lp_feasible A b s). Qed.

Lemma margin_zero_region (A : matrix) (b : vector) (y : point) :
  margin_fits A b y 0 <-> Hrep_feasible A b y.
Proof.
  unfold margin_fits, Hrep_feasible. apply Forall_equiv.
  intros [row bi] _. cbn [fst snd]. rewrite Rmult_0_r, Rplus_0_r.
  reflexivity.
Qed.

(** The outcome of [chebyshev_center] on a model whose region has a
    point. *)
Lemma cheby_outcome :
  forall (A : matrix) (b : vector)
         (solve : MILP -> lp_status) (engine : ieqs_request -> polyhedron),
    Forall (fun row => length row = mat_ncols A) (mat_rows A) ->
    mat_nrows A = length (vec_entries b) ->
    (exists x0, Hrep_feasible A b x0) ->
    answers_ok solve engine (chebyshev_center VNone (VMatrix A) (VVector b)) ->
    match run solve engine
            (chebyshev_center VNone (VMatrix A) (VVector b)) with
    | Ok v =>
        exists (xs : list R) (rho : R),
          v = VVector (mk_vector (mat_ring A) xs) /\
          length xs = mat_ncols A /\
          0 <= rho /\
          Hrep_feasible A b (point_of xs) /\
          margin_fits A b (point_of xs) rho /\
          forall y t, margin_fits A b y t -> t <= rho
    | Err e =>
        e = UnboundedError /\
        forall bound, exists y t, margin_fits A b y t /\ bound < t
    end.
Proof.
  intros A b solve engine Hwf Hlen [x0 Hx0].
  rewrite (chebyshev_center_Ab A b Hlen).
  unfold mip_solve. cbn [bind answers_ok run].
  intros [Hok _].
  assert (H0 : milp_feasible (cheby_lp A b) (cheby_assign x0 0)).
  { apply cheby_lp_margin; [exact Hwf|].
    apply (margin_zero_region A b x0). exact Hx0. }
  destruct (solve (cheby_lp A b)) as [oval s| |]; cbn [bind run].
  - destruct Hok as (Hfeas & Hval & Hopt).
    unfold cheby_lp in Hval. cbn [milp_objective] in Hval.
    rewrite cheby_objective_eval in Hval.
    assert (Hnn : 0 <= oval).
    { specialize (Hopt _ H0). unfold cheby_lp in Hopt.
      cbn [milp_objective] in Hopt.
      rewrite cheby_objective_eval in Hopt. exact Hopt. }
    assert (Hfit : margin_fits A b
                     (point_of (map (fun i => s (cheby_x i))
                                    (range (mat_ncols A)))) oval).
    { apply (margin_fits_agree A b (fun j => s (cheby_x j))); [exact Hwf| |].
      - intros j Hj. symmetry. now apply point_of_values.
      - rewrite <- Hval. now apply cheby_lp_margin. }
    exists (map (fun i => s (cheby_x i)) (range (mat_ncols A))), oval.
    split; [reflexivity|].
    split; [unfold range; now rewrite length_map, length_seq|].
    split; [exact Hnn|].
    split.
    { unfold Hrep_feasible. unfold margin_fits in Hfit.
      eapply Forall_impl; [|exact Hfit].
      intros [row bi] H. cbn [fst snd] in *.
      pose proof (sqrt_pos (dot_product row row)) as Hn.
      pose proof (Rmult_le_pos _ _ Hn Hnn). lra. }
    split; [exact Hfit|].
    intros y t Hyt.
    assert (Hs : milp_feasible (cheby_lp A b) (cheby_assign y t))
      by (apply cheby_lp_margin; [exact Hwf | exact Hyt]).
    specialize (Hopt _ Hs). unfold cheby_lp in Hopt.
    cbn [milp_objective] in Hopt.
    rewrite cheby_objective_eval in Hopt. exact Hopt.
  - exfalso. exact (Hok _ H0).
  - split; [reflexivity|]. intros bound.
    destruct Hok as [_ Hunb]. destruct (Hunb bound) as (s & Hs & Hgt).
    unfold cheby_lp in Hgt. cbn [milp_objective] in Hgt.
    rewrite cheby_objective_eval in Hgt.
    exists (fun j => s (cheby_x j)), (s (cheby_r 0%nat)).
    split; [now apply cheby_lp_margin | exact Hgt].
Qed.



(** ** [chebyshev_center]: when the solver has nothing to return *)

Lemma zero_row_reads (row : list R) (y : point) :
  Forall (fun a => a = 0) row ->
  vdot row y = 0 /\ sqrt (dot_product row row) = 0.
Proof.
  intros H. unfold vdot. generalize 0%nat as k.
  induction H as [|a row Ha _ IH]; intros k.
  - cbn [vdot_from dot_product]. split; [reflexivity | exact sqrt_0].
  - subst a. destruct (IH (S k)) as [IH1 IH2].
    cbn [vdot_from dot_product]. rewrite IH1. split; [lra|].
    replace (0 * 0 + dot_product row row) with (dot_product row row) by lra.
    exact IH2.
Qed.

Lemma dot_product_zero_row (row : list R) :
  dot_product row row = 0 -> Forall (fun a => a = 0) row.
Proof.
  induction row as [|a row IH]; intros H; [constructor|].
  cbn [dot_product] in H. pose proof (dot_product_nonneg row) as Hn.
  constructor; [nra|]. apply IH. nra.
Qed.

(** Every row is a row of zeros with a negative right-hand side, or has a
    positive norm, or a right-hand side that is not negative. *)
Lemma zero_row_cases (l : list (list R * R)) :
  Exists zero_row_negative l \/
  Forall (fun rb : list R * R =>
            0 < sqrt (dot_product (fst rb) (fst rb)) \/ 0 <= snd rb) l.
Proof.
  induction l as [|[row bi] l IH]; [right; constructor|].
  destruct IH as [IH|IH]; [left; now apply Exists_cons_tl|].
  pose proof (sqrt_pos (dot_product row row)) as Hn.
  destruct (Rle_lt_or_eq_dec _ _ Hn) as [Hpos|Hzero].
  - right. constructor; [left; exact Hpos | exact IH].
  - destruct (Rle_or_lt 0 bi) as [Hb|Hb].
    + right. constructor; [right; exact Hb | exact IH].
    + left. apply Exists_cons_hd. split; [|exact Hb]. cbn [fst].
      apply dot_product_zero_row. apply sqrt_eq_0; [|now symmetry].
      apply dot_product_nonneg.
Qed.

(** Without such a row, a margin that is negative enough fits at the
    origin. *)
Lemma margin_fits_at_origin_or_zero (l : list (list R * R)) :
  Forall (fun rb : list R * R =>
            0 < sqrt (dot_product (fst rb) (fst rb)) \/ 0 <= snd rb) l ->
  exists rho0,
    Forall (fun rb : list R * R =>
              vdot (fst rb) (fun _ => 0)
              + sqrt (dot_product (fst rb) (fst rb)) * rho0 <= snd rb) l.
Proof.
  intros H.
  assert (G : exists rho0, rho0 <= 0 /\ forall rho, rho <= rho0 ->
            Forall (fun rb : list R * R =>
                      vdot (fst rb) (fun _ => 0)
                      + sqrt (dot_product (fst rb) (fst rb)) * rho
                      <= snd rb) l).
  { induction H as [|[row bi] l Hrow _ IH].
    - exists 0. split; [lra|]. intros rho _. constructor.
    - destruct IH as (rho1 & Hneg & IH). cbn [fst snd] in Hrow.
      pose proof (sqrt_pos (dot_product row row)) as Hn.
      destruct Hrow as [Hpos|Hb].
      + exists (Rmin rho1 (bi / sqrt (dot_product row row))).
        pose proof (Rmin_l rho1 (bi / sqrt (dot_product row row))) as Hl.
        pose proof (Rmin_r rho1 (bi / sqrt (dot_product row row))) as Hr.
        split; [lra|]. intros rho Hrho. constructor.
        * cbn [fst snd]. unfold vdot. rewrite vdot_from_origin.
          assert (Hle : rho <= bi / sqrt (dot_product row row)) by lra.
          apply (Rmult_le_compat_l (sqrt (dot_product row row))) in Hle;
            [|lra].
          replace (sqrt (dot_product row row)
                   * (bi / sqrt (dot_product row row)))
            with bi in Hle by (field; lra).
          lra.
        * apply IH. lra.
      + exists rho1. split; [exact Hneg|]. intros rho Hrho. constructor.
        * cbn [fst snd]. unfold vdot. rewrite vdot_from_origin.
          assert (Hle : sqrt (dot_product row row) * rho <= 0).
          { assert (Hrho0 : rho <= 0) by lra.
            pose proof (Rmult_le_compat_l _ _ _ Hn Hrho0) as Hm.
            rewrite Rmult_0_r in Hm. exact Hm. }
          lra.
        * apply IH. exact Hrho. }
  destruct G as (rho0 & _ & G). exists rho0. apply G. lra.
Qed.

(** The LP of [chebyshev_center] has no feasible point exactly when the
    model has a row of zeros with a negative right-hand side. *)
Lemma cheby_lp_feasible_iff (A : matrix) (b : vector) :
  Forall (fun row => length row = mat_ncols A) (mat_rows A) ->
  ((exists s, milp_feasible (cheby_lp A b) s) <->
   (Exists zero_row_negative (combine (mat_rows A) (vec_entries b)) -> False)).
Proof.
  intros Hwf. split.
  - intros [s Hs] Hex. apply cheby_lp_margin in Hs; [|exact Hwf].
    unfold margin_fits in Hs. rewrite Forall_forall in Hs.
    apply Exists_exists in Hex. destruct Hex as ([row bi] & Hin & Hz & Hb).
    specialize (Hs _ Hin). cbn [fst snd] in *.
    destruct (zero_row_reads row (fun j => s (cheby_x j)) Hz) as [E1 E2].
    rewrite E1, E2 in Hs. lra.
  - intros Hno.
    destruct (zero_row_cases (combine (mat_rows A) (vec_entries b)))
      as [Hex|Hall]; [contradiction|].
    destruct (margin_fits_at_origin_or_zero _ Hall) as [rho0 Hfit].
    exists (cheby_assign (fun _ => 0) rho0).
    apply cheby_lp_margin; [exact Hwf|]. exact Hfit.
Qed.

(** [chebyshev_center(A=A, b=b)], with a solver that honours its contract,
    raises [InfeasibleError] exactly when the model has a row of zeros with
    a negative right-hand side; an empty region alone does not make it
    raise. *)
Theorem chebyshev_center_InfeasibleError :
  forall (A : matrix) (b : vector)
         (solve : MILP -> lp_status) (engine : ieqs_request -> polyhedron),
    Forall (fun row => length row = mat_ncols A) (mat_rows A) ->
    mat_nrows A = length (vec_entries b) ->
    answers_ok solve engine (chebyshev_center VNone (VMatrix A) (VVector b)) ->
    (run solve engine (chebyshev_center VNone (VMatrix A) (VVector b))
     = Err InfeasibleError
     <-> Exists zero_row_negative (combine (mat_rows A) (vec_entries b))).
Proof.
  intros A b solve engine Hwf Hlen.
  rewrite (chebyshev_center_Ab A b Hlen).
  unfold mip_solve. cbn [bind answers_ok run].
  intros [Hok _].
  pose proof (cheby_lp_feasible_iff A b Hwf) as Hiff.
  destruct (solve (cheby_lp A b)) as [oval s| |]; cbn [bind run].
  - destruct Hok as (Hfeas & _). split; [discriminate|].
    intros Hex. exfalso. apply (proj1 Hiff); [now exists s | exact Hex].
  - split; [intros _ | reflexivity].
    destruct (zero_row_cases (combine (mat_rows A) (vec_entries b)))
      as [Hex|Hall]; [exact Hex|].
    exfalso. destruct (margin_fits_at_origin_or_zero _ Hall) as [rho0 Hfit].
    apply (Hok (cheby_assign (fun _ => 0) rho0)).
    apply cheby_lp_margin; [exact Hwf|]. exact Hfit.
  - destruct Hok as [[s Hs] _]. split; [discriminate|].
    intros Hex. exfalso. apply (proj1 Hiff); [now exists s | exact Hex].
Qed.

Lemma chebyshev_center_InfeasibleError_witness :
  Exists zero_row_negative
         (combine (mat_rows zero_row_A) (vec_entries zero_row_b)) /\
  run (fixed_solver Infeasible) plain_engine
      (chebyshev_center VNone (VMatrix zero_row_A) (VVector zero_row_b))
  = Err InfeasibleError.
Proof.
  assert (Hex : Exists zero_row_negative
                  (combine (mat_rows zero_row_A) (vec_entries zero_row_b))).
  { apply Exists_cons_hd. split; cbn [fst snd].
    - constructor; [reflexivity | constructor].
    - lra. }
  assert (Hwf : Forall (fun row => length row = mat_ncols zero_row_A)
                       (mat_rows zero_row_A))
    by (constructor; [reflexivity | constructor]).
  split; [exact Hex|].
  apply (chebyshev_center_InfeasibleError zero_row_A zero_row_b
           (fixed_solver Infeasible) plain_engine Hwf eq_refl); [|exact Hex].
  rewrite (chebyshev_center_Ab zero_row_A zero_row_b eq_refl).
  unfold mip_solve, fixed_solver. cbn [bind answers_ok].
  split; [|exact I]. intros s Hs.
  apply (proj1 (cheby_lp_feasible_iff zero_row_A zero_row_b Hwf));
    [now exists s | exact Hex].
Defined.

(** [chebyshev_center(A=A, b=b)] on a model with no row at all, with a
    solver that honours its contract, raises [UnboundedError]: the margin
    has no constraint. *)
Theorem chebyshev_center_no_rows :
  forall (A : matrix) (b : vector)
         (solve : MILP -> lp_status) (engine : ieqs_request -> polyhedron),
    mat_rows A = [] ->
    vec_entries b = [] ->
    answers_ok solve engine (chebyshev_center VNone (VMatrix A) (VVector b)) ->
    run solve engine (chebyshev_center VNone (VMatrix A) (VVector b))
    = Err UnboundedError.
Proof.
  intros A b solve engine HA Hb.
  assert (Hlen : mat_nrows A = length (vec_entries b))
    by (unfold mat_nrows; now rewrite HA, Hb).
  assert (Hany : forall s, milp_feasible (cheby_lp A b) s).
  { intros s. unfold milp_feasible, cheby_lp. cbn [milp_constraints].
    rewrite HA. constructor. }
  rewrite (chebyshev_center_Ab A b Hlen).
  unfold mip_solve. cbn [bind answers_ok run].
  intros [Hok _].
  destruct (solve (cheby_lp A b)) as [oval s| |]; cbn [bind run].
  - exfalso. destruct Hok as (_ & _ & Hopt).
    specialize (Hopt (cheby_assign (fun _ => 0) (oval + 1)) (Hany _)).
    unfold cheby_lp in Hopt. cbn [milp_objective] in Hopt.
    rewrite cheby_objective_eval in Hopt.
    change (cheby_assign (fun _ => 0) (oval + 1) (cheby_r 0%nat))
      with (oval + 1) in Hopt.
    lra.
  - exfalso. exact (Hok (cheby_assign (fun _ => 0) 0) (Hany _)).
  - reflexivity.
Qed.

Lemma chebyshev_center_no_rows_witness :
  run (fixed_solver Unbounded) plain_engine
      (chebyshev_center VNone (VMatrix no_row_A) (VVector no_row_b))
  = Err UnboundedError.
Proof.
  apply (chebyshev_center_no_rows no_row_A no_row_b
           (fixed_solver Unbounded) plain_engine eq_refl eq_refl).
  rewrite (chebyshev_center_Ab no_row_A no_row_b eq_refl).
  unfold mip_solve, fixed_solver. cbn [bind answers_ok].
  split; [|exact I].
  assert (Hany : forall s, milp_feasible (cheby_lp no_row_A no_row_b) s)
    by (intros s; constructor).
  split.
  - exists (cheby_assign (fun _ => 0) 0). apply Hany.
  - intros bound. exists (cheby_assign (fun _ => 0) (bound + 1)).
    split; [apply Hany|].
    unfold cheby_lp. cbn [milp_objective].
    rewrite cheby_objective_eval.
    change (cheby_assign (fun _ => 0) (bound + 1) (cheby_r 0%nat))
      with (bound + 1).
    lra.
Defined.

(** ** [supp_fun_polyhedron] on a polytope object *)

(** On an empty object the function returns the bare number [0] without
    formulating an LP, also when [return_xopt] asks for the pair of the
    value and the point; on an object that is not empty and has no
    constraint it raises [IndexError], from [P.Hrepresentation()[0]]. *)
Theorem supp_fun_polyhedron_object_edges :
  (forall (P : polyhedron) (d : list R) (verbose return_xopt : bool)
          (solver : string),
      poly_is_empty P = true ->
      supp_fun_polyhedron (VPolyhedron P) d verbose return_xopt solver
      = Ret (VNum 0)) /\
  (forall (P : polyhedron) (d : list R) (verbose return_xopt : bool)
          (solver : string),
      poly_is_empty P = false ->
      Hrepresentation P = [] ->
      supp_fun_polyhedron (VPolyhedron P) d verbose return_xopt solver
      = Raise IndexError).
Proof.
  split.
  - intros P d verbose return_xopt solver He.
    unfold supp_fun_polyhedron. cbn [m_is_empty bind]. now rewrite He.
  - intros P d verbose return_xopt solver He Hrep.
    unfold supp_fun_polyhedron. cbn [m_is_empty bind]. rewrite He.
    unfold supp_fun_solve, supp_fun_extract.
    cbn [m_base_ring m_Hrep_generator bind]. rewrite Hrep. reflexivity.
Qed.

(** On an object that is not empty the function formulates the LP of the
    rows it reads off the constraints, solves it and returns the value, or
    the value with the solver's point. *)
Lemma supp_fun_polyhedron_object_lp (P : polyhedron) (h0 : Hrep_obj)
    (hs : list Hrep_obj) (d : list R) (verbose return_xopt : bool)
    (solver : string) :
  poly_is_empty P = false ->
  Hrepresentation P = h0 :: hs ->
  supp_fun_polyhedron (VPolyhedron P) d verbose return_xopt solver
  = (sol <- mip_solve
              (supp_lp (mk_matrix (poly_base_ring P) (length (h_coeffs h0))
                          (map (fun h => vec_neg (h_coeffs h)) (h0 :: hs)))
                       (mk_vector (poly_base_ring P)
                          (map h_offset (h0 :: hs))) d solver) ;;
     if return_xopt then
       Ret (VList [VNum (fst sol);
                   VDict (map (fun i => (i, snd sol (supp_x i)))
                              (range (Nat.max (length d)
                                              (length (h_coeffs h0)))))])
     else Ret (VNum (fst sol))).
Proof.
  intros He E. unfold supp_fun_polyhedron. cbn [m_is_empty bind]. rewrite He.
  unfold supp_fun_solve. rewrite (supp_fun_extract_rows P h0 hs E).
  cbn [bind matrix_constraint m_ncols mat_ncols].
  unfold mat_nrows. cbn [mat_rows vec_entries].
  rewrite !length_map, Nat.eqb_refl. reflexivity.
Qed.

(** The rows read off the constraints take every constraint for the
    inequality [offset + coeff . x >= 0]. *)
Lemma extract_rows_region (K : ring) (n : nat) (hs : list Hrep_obj)
    (x : point) :
  Hrep_feasible (mk_matrix K n (map (fun h => vec_neg (h_coeffs h)) hs))
                (mk_vector K (map h_offset hs)) x
  <-> Forall (fun h => 0 <= h_offset h + vdot (h_coeffs h) x) hs.
Proof.
  unfold Hrep_feasible. cbn [mat_rows vec_entries].
  induction hs as [|h hs IH]; [split; constructor|].
  cbn [map combine].
  split; intros H; inversion H as [|? ? H1 H2]; subst; constructor.
  - cbn [fst snd] in H1. rewrite vdot_neg in H1. lra.
  - now apply IH.
  - cbn [fst snd]. rewrite vdot_neg. lra.
  - now apply IH.
Qed.

Lemma inequalities_region (P : polyhedron) (x : point) :
  Forall (fun h => is_equation h = false) (Hrepresentation P) ->
  (Forall (fun h => 0 <= h_offset h + vdot (h_coeffs h) x) (Hrepresentation P)
   <-> poly_contains P x).
Proof.
  intros Hnoeq. unfold poly_contains. apply Forall_equiv. intros h Hh.
  rewrite Forall_forall in Hnoeq. unfold constraint_holds.
  rewrite (Hnoeq h Hh). reflexivity.
Qed.

(** On an object whose constraints, each read as an inequality, describe
    its region, the function returns the maximum over the object or raises
    as the solver reports. *)
Lemma supp_fun_object_outcome (P : polyhedron) (n : nat) (d : list R)
    (verbose return_xopt : bool) (solver : string)
    (solve : MILP -> lp_status) (engine : ieqs_request -> polyhedron) :
  poly_is_empty P = false ->
  Hrepresentation P <> [] ->
  (forall y, Forall (fun h => 0 <= h_offset h + vdot (h_coeffs h) y)
                    (Hrepresentation P) <-> poly_contains P y) ->
  Forall (fun h => length (h_coeffs h) = n)
         (Hrepresentation P) ->
  answers_ok solve engine
    (supp_fun_polyhedron (VPolyhedron P) d verbose return_xopt solver) ->
  match run solve engine
          (supp_fun_polyhedron (VPolyhedron P) d verbose return_xopt
                               solver) with
  | Ok v =>
      exists (oval : R) (x : point),
        v = (if return_xopt then
               VList [VNum oval;
                      VDict (map (fun i => (i, x i))
                                 (range (Nat.max (length d)
                                                 (n))))]
             else VNum oval) /\
        poly_contains P x /\
        vdot d x = oval /\
        forall y, poly_contains P y -> vdot d y <= oval
  | Err e =>
      (e = InfeasibleError /\ forall y, ~ poly_contains P y) \/
      (e = UnboundedError /\
       forall bound, exists y, poly_contains P y /\ bound < vdot d y)
  end.
Proof.
  intros He Hne Hineq Hshape.
  destruct (Hrepresentation P) as [|h0 hs] eqn:E; [contradiction|].
  rewrite (supp_fun_polyhedron_object_lp P h0 hs d verbose return_xopt solver
             He E).
  set (A := mk_matrix (poly_base_ring P) (length (h_coeffs h0))
              (map (fun h => vec_neg (h_coeffs h)) (h0 :: hs))).
  set (b := mk_vector (poly_base_ring P) (map h_offset (h0 :: hs))).
  assert (Hn : length (h_coeffs h0) = n)
    by (now apply Forall_inv in Hshape).
  assert (Hwf : Forall (fun row => length row = mat_ncols A) (mat_rows A)).
  { unfold A. cbn [mat_rows mat_ncols]. rewrite Forall_map.
    eapply Forall_impl; [|exact Hshape].
    intros h Hh. cbv beta in Hh. unfold vec_neg. rewrite length_map.
    now rewrite Hh, Hn. }
  assert (Hreg : forall y, Hrep_feasible A b y <-> poly_contains P y).
  { intros y. rewrite <- (Hineq y). apply extract_rows_region. }
  unfold mip_solve. cbn [bind answers_ok run].
  intros [Hok _].
  destruct (solve (supp_lp A b d solver)) as [oval s| |];
    cbn [bind run]; cbn [solver_answer_ok] in Hok.
  - destruct Hok as (Hfeas & Hval & Hopt).
    assert (Hv : (if return_xopt then
                    Ret (VList [VNum (fst (oval, s));
                           VDict (map (fun i => (i, snd (oval, s) (supp_x i)))
                                      (range (Nat.max (length d)
                                                (length (h_coeffs h0)))))])
                  else Ret (VNum (fst (oval, s))))
                 = Ret (if return_xopt then
                          VList [VNum oval;
                            VDict (map (fun i => (i, s (supp_x i)))
                                       (range (Nat.max (length d)
                                                 (n))))]
                        else VNum oval))
      by (rewrite <- Hn; destruct return_xopt; reflexivity).
    rewrite Hv. cbn [run].
    exists oval, (fun j => s (supp_x j)).
    split; [reflexivity|].
    split; [apply Hreg; now apply (supp_lp_reads A b d solver s Hwf)|].
    split; [now rewrite <- (proj1 (supp_lp_reads A b d solver s Hwf))|].
    intros y Hy.
    pose (s' := (fun v : mipvar => y (snd v)) : assignment).
    destruct (supp_lp_reads A b d solver s' Hwf) as [Hobj Hiff].
    assert (Hobj' : lin_eval (milp_objective (supp_lp A b d solver)) s'
                    = vdot d y) by exact Hobj.
    rewrite <- Hobj'. apply Hopt, Hiff. apply Hreg. exact Hy.
  - left. split; [reflexivity|]. intros y Hy.
    pose (s' := (fun v : mipvar => y (snd v)) : assignment).
    apply (Hok s'). apply (supp_lp_reads A b d solver s' Hwf).
    apply Hreg. exact Hy.
  - right. split; [reflexivity|]. intros bound.
    destruct Hok as [_ Hunb]. destruct (Hunb bound) as (s & Hs & Hgt).
    exists (fun j => s (supp_x j)). split.
    + apply Hreg. now apply (supp_lp_reads A b d solver s Hwf).
    + now rewrite <- (proj1 (supp_lp_reads A b d solver s Hwf)).
Qed.

(** [supp_fun_polyhedron(P, d)] on a polytope object that is not empty, has
    a constraint and no equation, each constraint with one coefficient per
    coordinate, and with a solver that honours its contract: the function
    returns the maximum of [d . x] over the object, attained at a point of
    the object (with [return_xopt] the value and the coordinates of that
    point); or it raises [InfeasibleError] and the object has no point, or
    [UnboundedError] and [d . x] is unbounded on the object. *)
Theorem supp_fun_polyhedron_object_optimum :
  forall (P : polyhedron) (d : list R) (verbose return_xopt : bool)
         (solver : string)
         (solve : MILP -> lp_status) (engine : ieqs_request -> polyhedron),
    poly_is_empty P = false ->
    Hrepresentation P <> [] ->
    Forall (fun h => is_equation h = false) (Hrepresentation P) ->
    Forall (fun h => length (h_coeffs h) = poly_ambient_dim P)
           (Hrepresentation P) ->
    answers_ok solve engine
      (supp_fun_polyhedron (VPolyhedron P) d verbose return_xopt solver) ->
    match run solve engine
            (supp_fun_polyhedron (VPolyhedron P) d verbose return_xopt
                                 solver) with
    | Ok v =>
        exists (oval : R) (x : point),
          v = (if return_xopt then
                 VList [VNum oval;
                        VDict (map (fun i => (i, x i))
                                   (range (Nat.max (length d)
                                                   (poly_ambient_dim P))))]
               else VNum oval) /\
          poly_contains P x /\
          vdot d x = oval /\
          forall y, poly_contains P y -> vdot d y <= oval
    | Err e =>
        (e = InfeasibleError /\ forall y, ~ poly_contains P y) \/
        (e = UnboundedError /\
         forall bound, exists y, poly_contains P y /\ bound < vdot d y)
    end.
Proof.
  intros P d verbose return_xopt solver solve engine He Hne Hnoeq Hshape.
  apply supp_fun_object_outcome; try assumption.
  intros y. now apply inequalities_region.
Qed.

Lemma supp_fun_polyhedron_object_optimum_witness :
  match run (fixed_solver (Optimal 1 (fun _ => 1))) plain_engine
            (supp_fun_polyhedron (VPolyhedron segment_object) [1] false true
                                 "GLPK") with
  | Ok v =>
      exists (oval : R) (x : point),
        v = VList [VNum oval;
                   VDict (map (fun i => (i, x i))
                              (range (Nat.max (length [1])
                                        (poly_ambient_dim segment_object))))]
        /\
        poly_contains segment_object x /\
        vdot [1] x = oval /\
        forall y, poly_contains segment_object y -> vdot [1] y <= oval
  | Err e =>
      (e = InfeasibleError /\ forall y, ~ poly_contains segment_object y) \/
      (e = UnboundedError /\
       forall bound, exists y,
         poly_contains segment_object y /\ bound < vdot [1] y)
  end.
Proof.
  assert (Hne : Hrepresentation segment_object <> []) by discriminate.
  assert (Hnoeq : Forall (fun h => is_equation h = false)
                         (Hrepresentation segment_object)).
  { constructor; [reflexivity|]. constructor; [reflexivity|]. constructor. }
  assert (Hshape : Forall (fun h => length (h_coeffs h)
                                    = poly_ambient_dim segment_object)
                          (Hrepresentation segment_object)).
  { constructor; [reflexivity|]. constructor; [reflexivity|]. constructor. }
  apply (supp_fun_polyhedron_object_optimum segment_object [1] false true
           "GLPK" (fixed_solver (Optimal 1 (fun _ => 1))) plain_engine
           eq_refl Hne Hnoeq Hshape).
  rewrite (supp_fun_polyhedron_object_lp segment_object
             (mk_Hrep_obj false 1 [-1]) [mk_Hrep_obj false 1 [1]]
             [1] false true "GLPK" eq_refl eq_refl).
  unfold mip_solve, fixed_solver. cbn [bind answers_ok].
  split; [|exact I].
  cbn [solver_answer_ok]. split; [|split].
  - unfold milp_feasible, supp_lp. cbn.
    constructor; [cbn [fst snd lin_eval]; lra|].
    constructor; [cbn [fst snd lin_eval]; lra|]. constructor.
  - unfold supp_lp. cbn. lra.
  - intros s' Hs'. unfold milp_feasible, supp_lp in *. cbn in *.
    apply Forall_inv in Hs'. cbn in Hs'. lra.
Defined.

(** ** [supp_fun_polyhedron] on the object of a box *)

Lemma box_support_bound (c : list R) (r : R) (x : point) :
  in_box c r x ->
  forall (d : list R) (k : nat),
    (k + length d <= length c)%nat ->
    vdot_from k d x <= vdot_from k d (point_of c) + r * norm1 d.
Proof.
  intros Hx. induction d as [|a d IH]; intros k Hk.
  - cbn [vdot_from norm1]. lra.
  - cbn [length] in Hk. cbn [vdot_from norm1].
    specialize (IH (S k) ltac:(lia)).
    specialize (Hx k ltac:(lia)). unfold point_of at 1.
    assert (Ha : a * x k <= a * nth k c 0 + r * Rabs a).
    { unfold Rabs. destruct (Rcase_abs a); nra. }
    lra.
Qed.

Lemma box_corner_in_box (c d : list R) (r : R) :
  0 <= r -> in_box c r (box_corner c d r).
Proof.
  intros Hr i _. unfold box_corner.
  destruct (Rle_dec 0 (nth i d 0)); lra.
Qed.

Lemma box_corner_value (c d : list R) (r : R) :
  forall (d' pre : list R),
    d = pre ++ d' ->
    vdot_from (length pre) d' (box_corner c d r)
    = vdot_from (length pre) d' (point_of c) + r * norm1 d'.
Proof.
  induction d' as [|a d' IH]; intros pre E.
  - cbn [vdot_from norm1]. lra.
  - cbn [vdot_from norm1].
    assert (E' : d = (pre ++ [a]) ++ d')
      by (rewrite <- app_assoc; exact E).
    specialize (IH (pre ++ [a]) E').
    rewrite length_app in IH. cbn [length] in IH.
    rewrite Nat.add_1_r in IH. rewrite IH.
    assert (Hnth : nth (length pre) d 0 = a)
      by (rewrite E; apply nth_middle).
    unfold box_corner. rewrite Hnth.
    set (rest := vdot_from (S (length pre)) d' (point_of c)).
    unfold point_of.
    unfold Rabs. destruct (Rle_dec 0 a); destruct (Rcase_abs a); lra.
Qed.

Lemma inequalities_region_full (P : polyhedron) :
  full_dimensional (poly_contains P) ->
  forall x,
    Forall (fun h => 0 <= h_offset h + vdot (h_coeffs h) x) (Hrepresentation P)
    <-> poly_contains P x.
Proof.
  intros (p & eps & Heps & Hbox) x.
  unfold poly_contains. apply Forall_equiv. intros h Hh.
  unfold constraint_holds. destruct (is_equation h) eqn:Eh; [|reflexivity].
  destruct (equation_on_box_trivial (h_offset h) (h_coeffs h) p eps Heps)
    as [Hv Hoff].
  { intros y Hy. specialize (Hbox y Hy). unfold poly_contains in Hbox.
    rewrite Forall_forall in Hbox. specialize (Hbox h Hh).
    unfold constraint_holds in Hbox. now rewrite Eh in Hbox. }
  rewrite Hv, Hoff. split; intros _; lra.
Qed.

Lemma supp_fun_of_BoxInfty_request (c : list R) (r : R) (K : ring)
    (d : list R) :
  K = QQ \/ K = RDF ->
  supp_fun_of_BoxInfty c r K d
  = NewPolyhedron (box_request K c r)
      (fun P => supp_fun_polyhedron (VPolyhedron P) d false false "GLPK").
Proof.
  intros HK. unfold supp_fun_of_BoxInfty.
  rewrite BoxInfty_center_radius_object.
  rewrite (polyhedron_from_Hrep_request _ _ K HK)
    by (unfold mat_nrows, box_A, box_b; cbn [mat_rows vec_entries];
        now rewrite !length_map).
  reflexivity.
Qed.



(** ** [chebyshev_center] on a polytope object *)

Lemma to_Hrep_shape (P : polyhedron) (n : nat) :
  Forall (fun h => length (h_coeffs h) = n) (Hrepresentation P) ->
  mat_nrows (to_Hrep_A P) = length (vec_entries (to_Hrep_b P)) /\
  Forall (fun row => length row = mat_ncols (to_Hrep_A P))
         (mat_rows (to_Hrep_A P)).
Proof.
  intros Hshape. split.
  - unfold to_Hrep_A, to_Hrep_b, mat_nrows, matrix_of, vector_of.
    cbn [mat_rows vec_entries]. now rewrite !length_map.
  - destruct (Hrep_rows P) as [|rb rows] eqn:E.
    + unfold to_Hrep_A. rewrite E. constructor.
    + assert (Hne : Hrep_rows P <> []) by (rewrite E; discriminate).
      destruct (matrix_of_rows_shape RDF (Hrep_rows P) n Hne
                  (Hrep_rows_shape P n Hshape)) as [Hncols Hwf].
      unfold to_Hrep_A. now rewrite Hncols.
Qed.



(** ** [BoxInfty]: the polytope object *)

(** The object that the constructor returns for a model describes the
    region of the model. *)
Lemma from_Hrep_object (A : matrix) (b : vector) (K : ring)
    (solve : MILP -> lp_status) (engine : ieqs_request -> polyhedron) :
  K = QQ \/ K = RDF ->
  mat_nrows A = length (vec_entries b) ->
  answers_ok solve engine (polyhedron_from_Hrep (VMatrix A) (VVector b) K) ->
  exists P : polyhedron,
    run solve engine (polyhedron_from_Hrep (VMatrix A) (VVector b) K)
      = Ok (VPolyhedron P) /\
    (forall x, poly_contains P x <-> Hrep_feasible A b x) /\
    Forall (fun h => length (h_coeffs h) = mat_ncols A) (Hrepresentation P).
Proof.
  intros HK Hlen. rewrite (polyhedron_from_Hrep_request A b K HK Hlen).
  cbn [answers_ok run]. intros [[Hreg Hshape] _].
  eexists. split; [reflexivity|]. split.
  - intros x. rewrite (Hreg x). cbn [req_ieqs]. apply ieqs_of_region.
  - exact Hshape.
Qed.



(** With a ring other than [QQ] and [RDF], [BoxInfty] returns the
    half-space model over that ring when [return_HSpaceRep] is set, and
    raises [ValueError] otherwise, after the model is built and without a
    request to the constructor. *)
Theorem BoxInfty_unsupported_ring :
  forall (c : list R) (r : R),
    BoxInfty VNone (VList (map VNum c)) (VNum r) RR true
      = Ret (VList [VMatrix (box_A RR c r); VVector (box_b RR c r)]) /\
    BoxInfty VNone (VList (map VNum c)) (VNum r) RR false
      = Raise ValueError.
Proof.
  intros c r. split.
  - apply BoxInfty_center_radius.
  - rewrite BoxInfty_center_radius_object. reflexivity.
Qed.
